(** * secondmind-cli: note parsing, due-date classification and the note store

    A shallow embedding of [src/secondmind/app.py]: [parse_note],
    [build_note_from_json], [add_note_to_db], [import_txt_to_db],
    [view_due_notes] and [export_notes_to_json], then [delete_note_by_id],
    [db_note_exists], [edit_note_by_id], [import_json_to_db],
    [show_due_alerts_from_db], [register_user] and [login_user], with the
    Python string methods they call ([strip], [split], [rsplit], [rstrip],
    [join], [startswith], [in]) and the part of SQLite's and [datetime]'s
    behaviour they rely on. *)

From Stdlib Require Import List Bool Arith NArith ZArith Lia.
From Stdlib Require Strings.String.
From Stdlib Require Import Strings.Ascii.
Import ListNotations.
Import String.StringSyntax.
Delimit Scope string_scope with string.

(** ** Python strings

    A Python [str] is a sequence of Unicode code points; a code point is
    kept as its number. *)

Definition char := N.
Definition str := list char.

(** The code point of an ASCII character of the source, and the string of
    an ASCII literal. *)
Definition chr (a : ascii) : char := N_of_ascii a.

Definition lit (s : String.string) : str :=
  map chr (String.list_ascii_of_string s).

Arguments chr a%_char.
Arguments lit s%_string.

Definition char_eqb (a b : char) : bool := N.eqb a b.

Fixpoint str_eqb (a b : str) : bool :=
  match a, b with
  | [], [] => true
  | x :: a', y :: b' => char_eqb x y && str_eqb a' b'
  | _, _ => false
  end.

(** [str.isspace] on one character, the test behind [strip()] and [split()]
    without arguments: the ASCII controls 0x09-0x0D and 0x1C-0x1F, the space,
    and the Unicode characters of bidirectional class WS, B or S or of
    category Zs. *)
Definition is_space (c : char) : bool :=
  ((9 <=? c) && (c <=? 13) || (28 <=? c) && (c <=? 32) || (c =? 133) || (c =? 160)
   || (c =? 5760) || (8192 <=? c) && (c <=? 8202) || (c =? 8232) || (c =? 8233)
   || (c =? 8239) || (c =? 8287) || (c =? 12288))%N.

(** Truthiness of a string: [bool(s)] is [len(s) != 0]. *)
Definition truthy_str (s : str) : bool :=
  match s with [] => false | _ :: _ => true end.

(** [s.startswith(prefix)]. *)
Fixpoint startswith (s prefix : str) {struct prefix} : bool :=
  match prefix, s with
  | [], _ => true
  | p :: prefix', c :: s' => char_eqb c p && startswith s' prefix'
  | _ :: _, [] => false
  end.

(** [sub in s]: some suffix of [s] starts with [sub]. *)
Fixpoint contains (sub s : str) : bool :=
  startswith s sub ||
  match s with
  | [] => false
  | _ :: s' => contains sub s'
  end.

(** [s.lstrip()], [s.rstrip()] and [s.strip()] without arguments. *)
Fixpoint lstrip (s : str) : str :=
  match s with
  | [] => []
  | c :: s' => if is_space c then lstrip s' else s
  end.

Definition rstrip (s : str) : str := rev (lstrip (rev s)).

Definition strip (s : str) : str := rstrip (lstrip s).

(** [s.rstrip(chars)]: every trailing character that occurs in [chars] goes. *)
Definition char_in (chars : str) (c : char) : bool := existsb (char_eqb c) chars.

Fixpoint lstrip_chars (chars s : str) : str :=
  match s with
  | [] => []
  | c :: s' => if char_in chars c then lstrip_chars chars s' else s
  end.

Definition rstrip_chars (chars s : str) : str := rev (lstrip_chars chars (rev s)).

(** [s.split()] without arguments: runs of whitespace separate the words, and
    no empty word is produced.  [cur] is the word being read. *)
Fixpoint split_ws_from (cur s : str) : list str :=
  match s with
  | [] => match cur with [] => [] | _ :: _ => [cur] end
  | c :: s' =>
      if is_space c
      then match cur with
           | [] => split_ws_from [] s'
           | _ :: _ => cur :: split_ws_from [] s'
           end
      else split_ws_from (cur ++ [c]) s'
  end.

Definition split_ws (s : str) : list str := split_ws_from [] s.

(** [s.split(sep)] for a non-empty [sep]: the occurrences of [sep] are taken
    from the left and do not overlap.  [skip] counts the characters of a
    matched separator still to pass over. *)
Fixpoint split_sep_from (sep cur : str) (skip : nat) (s : str) : list str :=
  match s with
  | [] => [cur]
  | c :: s' =>
      match skip with
      | S k => split_sep_from sep cur k s'
      | O =>
          if startswith s sep
          then cur :: split_sep_from sep [] (pred (length sep)) s'
          else split_sep_from sep (cur ++ [c]) O s'
      end
  end.

Definition split_sep (sep s : str) : list str := split_sep_from sep [] O s.

(** [s.rfind(sub)]: the greatest index at which [sub] occurs. *)
Fixpoint rfind (sub s : str) : option nat :=
  match s with
  | [] => if startswith [] sub then Some O else None
  | _ :: s' =>
      match rfind sub s' with
      | Some i => Some (S i)
      | None => if startswith s sub then Some O else None
      end
  end.

(** [s.rsplit(sep, 1)]: one split, at the last occurrence of [sep]. *)
Definition rsplit1 (sep s : str) : list str :=
  match rfind sep s with
  | Some i => [firstn i s; skipn (i + length sep) s]
  | None => [s]
  end.

(** [sep.join(parts)]. *)
Fixpoint join (sep : str) (parts : list str) : str :=
  match parts with
  | [] => []
  | [p] => p
  | p :: rest => p ++ sep ++ join sep rest
  end.

(** ** Exceptions *)

Inductive exn := ValueError | IndexError | OverflowError.

Inductive result (A : Type) : Type :=
| Ok (a : A)
| Raise (e : exn).

Arguments Ok {A} a.
Arguments Raise {A} e.

Definition bind {A B} (m : result A) (k : A -> result B) : result B :=
  match m with
  | Ok a => k a
  | Raise e => Raise e
  end.

Declare Scope result_scope.
Delimit Scope result_scope with result.
Notation "x <- m ;; k" := (bind m (fun x => k))
  (at level 61, m at next level, right associativity) : result_scope.
Notation "' pat <- m ;; k" := (bind m (fun x => match x with pat => k end))
  (at level 61, pat pattern, m at next level, right associativity) : result_scope.
Open Scope result_scope.

(** [a, b = parts]: unpacking into two names raises [ValueError] unless
    [parts] has exactly two elements. *)
Definition unpack2 {A} (parts : list A) : result (A * A) :=
  match parts with
  | [a; b] => Ok (a, b)
  | _ => Raise ValueError
  end.

(** [parts[i]] on a list. *)
Definition index {A} (parts : list A) (i : nat) : result A :=
  match nth_error parts i with
  | Some a => Ok a
  | None => Raise IndexError
  end.

(** ** [parse_note] and [build_note_from_json] *)

(** The dictionary [{"note": ..., "tags": ..., "due_date": ...}]. *)
Record note_dict := NoteDict {
  note : str;
  tags : list str;
  due_date : option str
}.

Definition DUE : str := lit "[due:".
Definition HASH : str := lit "#".
Definition SPACE : str := lit " ".
Definition COMMA : str := lit ",".
Definition RBRACKET : str := lit "]".

Definition is_tag (word : str) : bool := startswith word HASH.

Definition parse_note (raw_note : str) : result note_dict :=
  '(note_part, due) <-
     (if contains DUE raw_note
      then '(note_part, due_chunk) <- unpack2 (rsplit1 DUE raw_note) ;;
           Ok (note_part, Some (strip (rstrip_chars RBRACKET due_chunk)))
      else Ok (raw_note, None)) ;;
  let tag_tokens := filter is_tag (split_ws (strip note_part)) in
  let clean_note :=
    join SPACE (filter (fun word => negb (is_tag word)) (split_ws (strip note_part))) in
  Ok {| note := strip clean_note; tags := tag_tokens; due_date := due |}.

Definition build_note_from_json (data : note_dict) : str :=
  let tags := match tags data with [] => [] | _ :: _ => join COMMA (tags data) end in
  let due :=
    match due_date data with
    | Some d => if truthy_str d then lit "[due:" ++ d ++ lit "]" else []
    | None => []
    end in
  strip (note data ++ SPACE ++ tags ++ SPACE ++ due).


(** ** Dates

    A [datetime.date] is kept as its proleptic Gregorian ordinal
    ([date.toordinal()], day 1 is 0001-01-01): the library compares dates and
    adds a [timedelta] to a date through it.  [MAXORDINAL] is
    [date.max.toordinal()], the ordinal of 9999-12-31. *)

Record date := Date { toordinal : Z }.

Definition MINYEAR : Z := 1.
Definition MAXYEAR : Z := 9999.
Definition MAXORDINAL : Z := 3652059.

Definition date_eqb (a b : date) : bool := (toordinal a =? toordinal b)%Z.
Definition date_ltb (a b : date) : bool := (toordinal a <? toordinal b)%Z.
Definition date_leb (a b : date) : bool := (toordinal a <=? toordinal b)%Z.

(** [d + timedelta(days=n)]: [OverflowError] when the result leaves the
    range of [date]. *)
Definition date_add_days (d : date) (n : Z) : result date :=
  let o := (toordinal d + n)%Z in
  if ((1 <=? o) && (o <=? MAXORDINAL))%Z then Ok (Date o) else Raise OverflowError.

Definition is_leap (year : Z) : bool :=
  ((year mod 4 =? 0) && (negb (year mod 100 =? 0) || (year mod 400 =? 0)))%Z.

Definition days_before_year (year : Z) : Z :=
  let y := (year - 1)%Z in (y * 365 + y / 4 - y / 100 + y / 400)%Z.

Definition DAYS_IN_MONTH : list Z := [31; 28; 31; 30; 31; 30; 31; 31; 30; 31; 30; 31]%Z.
Definition DAYS_BEFORE_MONTH : list Z :=
  [0; 31; 59; 90; 120; 151; 181; 212; 243; 273; 304; 334]%Z.

Definition days_in_month (year month : Z) : Z :=
  if ((month =? 2) && is_leap year)%Z then 29%Z
  else nth (Z.to_nat (month - 1)) DAYS_IN_MONTH 0%Z.

Definition days_before_month (year month : Z) : Z :=
  (nth (Z.to_nat (month - 1)) DAYS_BEFORE_MONTH 0
   + (if (2 <? month) && is_leap year then 1 else 0))%Z.

Definition ymd2ord (year month day : Z) : Z :=
  (days_before_year year + days_before_month year month + day)%Z.

(** [date(year, month, day)]: [ValueError] outside the calendar. *)
Definition make_date (year month day : Z) : result date :=
  if ((MINYEAR <=? year) && (year <=? MAXYEAR) && (1 <=? month) && (month <=? 12)
      && (1 <=? day) && (day <=? days_in_month year month))%Z
  then Ok (Date (ymd2ord year month day))
  else Raise ValueError.

(** ** [datetime.strptime(s, "%Y-%m-%d").date()]

    The library turns the format into the regular expression
    [(\d\d\d\d)-(1[0-2]|0[1-9]|[1-9])-(3[0-1]|[1-2]\d|0[1-9]|[1-9]| [1-9])],
    matches it at the start of [s], and raises [ValueError] when it does not
    match, when part of [s] is left over, or when the three numbers are not a
    date.  Each [re_] function lists the ways its group matches a prefix, in
    the order the alternatives are tried.

    [\d] matches every decimal digit of Unicode, and [int] reads the number
    from them; a class such as [[1-9]] matches ASCII digits only.  The
    decimal digits come in runs of ten, each from its zero: [DECIMAL_ZEROS]
    lists the zeros of Unicode 14.0, the version Python 3.11 carries. *)

Definition DECIMAL_ZEROS : list N :=
  [48; 1632; 1776; 1984; 2406; 2534; 2662; 2790; 2918; 3046; 3174; 3302; 3430;
   3558; 3664; 3792; 3872; 4160; 4240; 6112; 6160; 6470; 6608; 6784; 6800; 6992;
   7088; 7232; 7248; 42528; 43216; 43264; 43472; 43504; 43600; 44016; 65296;
   66720; 68912; 69734; 69872; 69942; 70096; 70384; 70736; 70864; 71248; 71360;
   71472; 71904; 72016; 72784; 73040; 73120; 92768; 92864; 93008; 120782; 120792;
   120802; 120812; 120822; 123200; 123632; 125264; 130032]%N.

(** [\d]: the value of a decimal digit. *)
Definition digit (c : char) : option Z :=
  match find (fun zero => (zero <=? c) && (c <? zero + 10))%N DECIMAL_ZEROS with
  | Some zero => Some (Z.of_N (c - zero))
  | None => None
  end.

(** [[lo-hi]]: the value of an ASCII digit of that class. *)
Definition digit_in (lo hi : Z) (c : char) : option Z :=
  if ((48 <=? c) && (c <=? 57))%N
  then let v := (Z.of_N c - 48)%Z in
       if ((lo <=? v) && (v <=? hi))%Z then Some v else None
  else None.

Definition re_char (c : char) (s : str) : list str :=
  match s with
  | x :: rest => if char_eqb x c then [rest] else []
  | [] => []
  end.

(** Two characters, the first in [lo1..hi1] and the second in [lo2..hi2]. *)
Definition re_two (lo1 hi1 lo2 hi2 : Z) (s : str) : list (Z * str) :=
  match s with
  | a :: b :: rest =>
      match digit_in lo1 hi1 a, digit_in lo2 hi2 b with
      | Some x, Some y => [((10 * x + y)%Z, rest)]
      | _, _ => []
      end
  | _ => []
  end.

(** Two characters, the first in [lo..hi] and the second a [\d]. *)
Definition re_two_d (lo hi : Z) (s : str) : list (Z * str) :=
  match s with
  | a :: b :: rest =>
      match digit_in lo hi a, digit b with
      | Some x, Some y => [((10 * x + y)%Z, rest)]
      | _, _ => []
      end
  | _ => []
  end.

Definition re_one (lo hi : Z) (s : str) : list (Z * str) :=
  match s with
  | a :: rest =>
      match digit_in lo hi a with
      | Some x => [(x, rest)]
      | None => []
      end
  | [] => []
  end.

Definition re_year (s : str) : list (Z * str) :=
  match s with
  | a :: b :: c :: d :: rest =>
      match digit a, digit b, digit c, digit d with
      | Some x, Some y, Some z, Some w => [((1000 * x + 100 * y + 10 * z + w)%Z, rest)]
      | _, _, _, _ => []
      end
  | _ => []
  end.

Definition re_month (s : str) : list (Z * str) :=
  re_two 1 1 0 2 s ++ re_two 0 0 1 9 s ++ re_one 1 9 s.

Definition re_day (s : str) : list (Z * str) :=
  re_two 3 3 0 1 s ++ re_two_d 1 2 s ++ re_two 0 0 1 9 s ++ re_one 1 9 s
  ++ flat_map (re_one 1 9) (re_char (chr " ") s).

Definition MINUS : char := chr "-".

(** Every match of the whole expression at the start of [s], first match
    first: year, month, day and what is left of [s]. *)
Definition re_ymd (s : str) : list (Z * Z * Z * str) :=
  flat_map (fun '(y, s1) =>
    flat_map (fun s2 =>
      flat_map (fun '(m, s3) =>
        flat_map (fun s4 =>
          map (fun '(d, s5) => (y, m, d, s5)) (re_day s4))
          (re_char MINUS s3))
        (re_month s2))
      (re_char MINUS s1))
    (re_year s).

Definition strptime_ymd (s : str) : result date :=
  match re_ymd s with
  | [] => Raise ValueError
  | (y, m, d, rest) :: _ =>
      match rest with
      | [] => make_date y m d
      | _ :: _ => Raise ValueError
      end
  end.

(** ** The loop of [view_due_notes] *)

(** A row of [SELECT id, note, tags, due_date]. *)
Definition note_row : Type := Z * str * option str * option str.

(** [try: body except ValueError: handler]. *)
Definition try_except_ValueError {A} (body : result A) (handler : result A) : result A :=
  match body with
  | Raise ValueError => handler
  | other => other
  end.

(** The loop over [results]; [filtered] is the list built so far.  [not due]
    holds for [None] and for the empty string. *)
Fixpoint due_loop (today week_later : date) (mode : str)
    (results filtered : list note_row) : result (list note_row) :=
  match results with
  | [] => Ok filtered
  | row :: rest =>
      let '(id_, note_, tags_, due) := row in
      match due with
      | None => due_loop today week_later mode rest filtered
      | Some [] => due_loop today week_later mode rest filtered
      | Some ((_ :: _) as due) =>
          filtered' <-
            try_except_ValueError
              (due_date <- strptime_ymd due ;;
               if str_eqb mode (lit "today") && date_eqb due_date today
               then Ok (filtered ++ [row])
               else if str_eqb mode (lit "overdue") && date_ltb due_date today
               then Ok (filtered ++ [row])
               else if str_eqb mode (lit "week")
                       && (date_leb today due_date && date_leb due_date week_later)
               then Ok (filtered ++ [row])
               else Ok filtered)
              (Ok filtered) ;;
          due_loop today week_later mode rest filtered'
      end
  end.

(** ** The notes table

    [tags] and [due_date] are nullable columns: [None] is SQL's NULL.  A
    row's id comes from the table's AUTOINCREMENT counter: [last_id] is the
    number SQLite keeps for the table in [sqlite_sequence], 0 when it keeps
    none. *)

Record db_row := DbRow {
  row_id : Z;
  row_user : str;
  row_note : str;
  row_tags : option str;
  row_due_date : option str
}.

Record database := Database {
  notes : list db_row;
  last_id : Z
}.

Definition empty_db : database := {| notes := []; last_id := 0 |}.

(** SQL's three-valued logic: [None] is the unknown truth value.  [a = b] is
    unknown when an operand is NULL; [a IS b] is never unknown, and true
    for two NULLs; a [WHERE] clause keeps the rows on which it is true. *)
Definition sql_eq (a b : option str) : option bool :=
  match a, b with
  | Some x, Some y => Some (str_eqb x y)
  | _, _ => None
  end.

Definition sql_is (a b : option str) : option bool :=
  match a, b with
  | Some x, Some y => Some (str_eqb x y)
  | None, None => Some true
  | _, _ => Some false
  end.

Definition sql_and (a b : option bool) : option bool :=
  match a, b with
  | Some false, _ | _, Some false => Some false
  | Some true, Some true => Some true
  | _, _ => None
  end.

Definition where_holds (c : option bool) : bool :=
  match c with Some true => true | _ => false end.

(** [",".join(tags) if tags else None]. *)
Definition tag_string_of (tags : list str) : option str :=
  match tags with
  | [] => None
  | _ :: _ => Some (join COMMA tags)
  end.

(** [WHERE user = ? AND note = ? AND tags = ? AND due_date IS ?]. *)
Definition duplicate_where (user note_ : str) (tag_string due : option str)
    (r : db_row) : option bool :=
  sql_and (sql_and (sql_and (sql_eq (Some (row_user r)) (Some user))
                            (sql_eq (Some (row_note r)) (Some note_)))
                   (sql_eq (row_tags r) tag_string))
          (sql_is (row_due_date r) due).

(** The id AUTOINCREMENT gives the next row: one above the counter and
    above every id of the table. *)
Definition next_id (db : database) : Z :=
  (fold_right Z.max (last_id db) (map row_id (notes db)) + 1)%Z.

(** [INSERT INTO notes (user, note, tags, due_date) VALUES (?, ?, ?, ?)],
    when SQLite carries it out: the new row, and the counter at its id. *)
Definition insert_note (user note_ : str) (tag_string due : option str)
    (db : database) : database :=
  let id := next_id db in
  {| notes := notes db ++ [DbRow id user note_ tag_string due]; last_id := id |}.

(** The body of [add_note_to_db(user, note, tags, due_date)] on the table
    [db], when its two statements are carried out: the flag of the [return]
    it reaches and the table it leaves.  What a caller gets from the
    function, the exception of a statement that is not carried out and the
    one of leaving the [with] block, is [add_note_to_db_call] below. *)
Definition add_note_to_db (user note_ : str) (tags_ : list str) (due : option str)
    (db : database) : bool * database :=
  let tag_string := tag_string_of tags_ in
  let duplicate :=
    find (fun r => where_holds (duplicate_where user note_ tag_string due r)) (notes db) in
  match duplicate with
  | Some _ => (false, db)
  | None => (true, insert_note user note_ tag_string due db)
  end.

(** [SELECT id, note, tags, due_date FROM notes WHERE user = ?]. *)
Definition select_notes (user : str) (db : database) : list note_row :=
  map (fun r => (row_id r, row_note r, row_tags r, row_due_date r))
      (filter (fun r => str_eqb (row_user r) user) (notes db)).

(** [view_due_notes(user, mode)] on the table [db], with
    [datetime.today().date()] as [today]; the result is [filtered], the rows
    handed to the table renderer. *)
Definition view_due_notes (db : database) (today : date) (user mode : str)
  : result (list note_row) :=
  let results := select_notes user db in
  week_later <- date_add_days today 7 ;;
  due_loop today week_later mode results [].

(** ** [import_txt_to_db] *)

(** What one line of the file becomes: [None] when the stripped line is
    empty and skipped, else the arguments [(note_part.strip(), tags,
    due_date)] of the call of [add_note_to_db].  The bare [except] leaves
    [due_date] at [None]. *)
Definition import_txt_line (line : str) : option (str * list str * option str) :=
  let line := strip line in
  if negb (truthy_str line) then None
  else
    let tags_ := filter is_tag (split_ws line) in
    let note_part :=
      join SPACE
        (filter (fun w => negb (is_tag w) && negb (startswith w DUE)) (split_ws line)) in
    let due :=
      if contains DUE line
      then match (chunk <- index (split_sep DUE line) 1 ;;
                  index (split_sep RBRACKET chunk) 0) with
           | Ok d => Some d
           | Raise _ => None
           end
      else None in
    Some (strip note_part, tags_, due).

(** ** [export_notes_to_json] *)

(** [tags.split(",") if tags else []]. *)
Definition export_tags (tags_ : option str) : list str :=
  match tags_ with
  | Some ((_ :: _) as t) => split_sep COMMA t
  | _ => []
  end.


(** ** Vocabulary of the statements *)

(** [occurs_at sub s i]: [sub] occurs in [s] at index [i]. *)
Definition occurs_at (sub s : str) (i : nat) : Prop :=
  exists before after, s = before ++ sub ++ after /\ length before = i.

Definition occurs (sub s : str) : Prop := exists i, occurs_at sub s i.


(** [last_occurrence sub s before after]: [s] splits as
    [before ++ sub ++ after] at the last occurrence of [sub]. *)
Definition last_occurrence (sub s before after : str) : Prop :=
  s = before ++ sub ++ after /\
  forall j, occurs_at sub s j -> j <= length before.

Definition blank (s : str) : Prop := Forall (fun c => is_space c = true) s.

(** A word: not empty, no whitespace in it. *)
Definition word (w : str) : Prop :=
  w <> [] /\ Forall (fun c => is_space c = false) w.

Definition starts_blank (s : str) : Prop :=
  match s with
  | [] => True
  | c :: _ => is_space c = true
  end.

Definition ends_blank (s : str) : Prop := starts_blank (rev s).

(** [tokens_of s toks]: [toks] are the whitespace-delimited tokens of [s],
    the maximal runs of characters that are not whitespace, in order. *)
Inductive tokens_of : str -> list str -> Prop :=
| tokens_blank (ws : str) :
    blank ws -> tokens_of ws []
| tokens_word (ws w rest : str) (toks : list str) :
    blank ws -> word w -> starts_blank rest -> tokens_of rest toks ->
    tokens_of (ws ++ w ++ rest) (w :: toks).

Definition first_not_space (s : str) : Prop :=
  match s with
  | [] => True
  | c :: _ => is_space c = false
  end.

(** [trimmed s t]: [t] is [s] without its leading and trailing whitespace. *)
Definition trimmed (s t : str) : Prop :=
  (exists l r, s = l ++ t ++ r /\ blank l /\ blank r) /\
  first_not_space t /\ first_not_space (rev t).

(** [without_trailing c s t]: [t] is [s] without its trailing run of [c]. *)
Definition without_trailing (c : char) (s t : str) : Prop :=
  (exists k, s = t ++ repeat c k) /\
  match rev t with
  | [] => True
  | x :: _ => x <> c
  end.

(** [Subsequence l1 l2]: [l1] is [l2] with some elements left out, the
    others in their order. *)
Inductive Subsequence {A : Type} : list A -> list A -> Prop :=
| Subsequence_nil : Subsequence [] []
| Subsequence_skip (x : A) (l1 l2 : list A) :
    Subsequence l1 l2 -> Subsequence l1 (x :: l2)
| Subsequence_keep (x : A) (l1 l2 : list A) :
    Subsequence l1 l2 -> Subsequence (x :: l1) (x :: l2).

(** What [parse_note] returns for the text [note_part] in front of the marker
    and the due date [due]. *)
Definition parse_of (note_part : str) (due : option str) : note_dict :=
  {| note := strip (join SPACE (filter (fun word => negb (is_tag word))
                                       (split_ws (strip note_part))));
     tags := filter is_tag (split_ws (strip note_part));
     due_date := due |}.

(** The reading of the due date in which one closing bracket at most is
    taken off the text behind the marker before it is trimmed. *)
Definition strip_one_trailing (c : char) (s : str) : str :=
  match rev s with
  | x :: r => if char_eqb x c then rev r else s
  | [] => s
  end.

Definition due_one_bracket_stripped (chunk : str) : str :=
  strip (strip_one_trailing (chr "]") chunk).

(** [due_matches today week_later mode d]: the date [d] is what [mode] asks
    for. *)
Definition due_matches (today week_later : date) (mode : str) (d : date) : Prop :=
  (mode = lit "today" /\ toordinal d = toordinal today) \/
  (mode = lit "overdue" /\ (toordinal d < toordinal today)%Z) \/
  (mode = lit "week" /\ (toordinal today <= toordinal d <= toordinal week_later)%Z).

(** The test the loop of [view_due_notes] applies to one row. *)
Definition row_selected (today week_later : date) (mode : str) (row : note_row) : bool :=
  match snd row with
  | Some ((_ :: _) as due) =>
      match strptime_ymd due with
      | Ok d =>
          str_eqb mode (lit "today") && date_eqb d today
          || str_eqb mode (lit "overdue") && date_ltb d today
          || str_eqb mode (lit "week") && (date_leb today d && date_leb d week_later)
      | Raise _ => false
      end
  | _ => false
  end.

(** [is_duplicate user note_ tags_ due db]: the table holds a row of [user]
    with the same note, the same joined tags and the same due date, an
    absent value being equal to an absent value only. *)
Definition is_duplicate (user note_ : str) (tags_ : list str) (due : option str)
    (db : database) : Prop :=
  exists r, In r (notes db) /\
            row_user r = user /\ row_note r = note_ /\
            row_tags r = tag_string_of tags_ /\ row_due_date r = due.

(** [ends_with_due_token s]: the only marker of [s] opens its last token,
    [[due:D]], and [D] has no whitespace and no bracket in it. *)
Definition ends_with_due_token (s : str) : Prop :=
  exists p d,
    s = p ++ DUE ++ d ++ RBRACKET /\
    ~ occurs DUE p /\ ends_blank p /\
    Forall (fun c => is_space c = false /\ c <> chr "[" /\ c <> chr "]") d.

(** ** Connections

    A [sqlite3] connection as the code uses it: the table as committed, the
    table as the statements of the open transaction have left it, and whether
    [close()] was called.  [close()] drops what was not committed; after it,
    a statement, [commit()] and [rollback()] raise
    [sqlite3.ProgrammingError] ("Cannot operate on a closed database").  A
    statement raises [UnicodeEncodeError] when a [str] bound to it cannot be
    encoded as UTF-8, and an [INSERT] raises [sqlite3.OperationalError]
    ("database or disk is full") when AUTOINCREMENT has no id left. *)

Inductive exception := ProgrammingError | OperationalError | UnicodeEncodeError.

Inductive outcome (A : Type) : Type :=
| Returns (a : A)
| Raises (e : exception).

Arguments Returns {A} a.
Arguments Raises {A} e.

Record connection := Connection {
  committed : database;
  in_transaction : database;
  closed : bool
}.

(** A piece of code that works on the connection [conn]. *)
Definition on_conn (A : Type) : Type := connection -> outcome A * connection.

Definition conn_ret {A} (a : A) : on_conn A := fun conn => (Returns a, conn).

Definition conn_bind {A B} (m : on_conn A) (k : A -> on_conn B) : on_conn B :=
  fun conn =>
    match m conn with
    | (Returns a, conn') => k a conn'
    | (Raises e, conn') => (Raises e, conn')
    end.

Declare Scope conn_scope.
Delimit Scope conn_scope with conn.
Notation "x <- m ;; k" := (conn_bind m (fun x => k))
  (at level 61, m at next level, right associativity) : conn_scope.

(** A code point UTF-8 encodes: any but a surrogate, up to the last code
    point a [str] can hold. *)
Definition encodable_char (c : char) : bool :=
  ((c <? 55296) || (57343 <? c) && (c <=? 1114111))%N.

Definition encodable (s : str) : bool := forallb encodable_char s.

(** The values bound to the [?] of a statement: [None] is bound as NULL. *)
Definition bindable (params : list (option str)) : bool :=
  forallb (fun param => match param with Some s => encodable s | None => true end) params.

(** An [int] is bound as SQLite's 64-bit INTEGER, and an id is one. *)
Definition sqlite_integer (n : Z) : bool :=
  ((-9223372036854775808 <=? n) && (n <=? 9223372036854775807))%Z.

(** [cursor.execute] of a [SELECT] with [params] bound, and what is fetched
    from it. *)
Definition execute_select {A} (params : list (option str)) (query : database -> A)
  : on_conn A :=
  fun conn =>
    if closed conn then (Raises ProgrammingError, conn)
    else if negb (bindable params) then (Raises UnicodeEncodeError, conn)
    else (Returns (query (in_transaction conn)), conn).

(** [cursor.execute] of the [INSERT] of a note. *)
Definition execute_insert (user note_ : str) (tag_string due : option str)
  : on_conn unit :=
  fun conn =>
    if closed conn then (Raises ProgrammingError, conn)
    else if negb (bindable [Some user; Some note_; tag_string; due])
    then (Raises UnicodeEncodeError, conn)
    else if negb (sqlite_integer (next_id (in_transaction conn)))
    then (Raises OperationalError, conn)
    else (Returns tt, {| committed := committed conn;
                         in_transaction :=
                           insert_note user note_ tag_string due (in_transaction conn);
                         closed := false |}).

(** [cursor.execute] of an [UPDATE] or [DELETE]. *)
Definition execute_change (change : database -> database) : on_conn unit :=
  fun conn =>
    if closed conn then (Raises ProgrammingError, conn)
    else (Returns tt, {| committed := committed conn;
                         in_transaction := change (in_transaction conn);
                         closed := false |}).

Definition commit : on_conn unit :=
  fun conn =>
    if closed conn then (Raises ProgrammingError, conn)
    else (Returns tt, {| committed := in_transaction conn;
                         in_transaction := in_transaction conn;
                         closed := false |}).

Definition rollback : on_conn unit :=
  fun conn =>
    if closed conn then (Raises ProgrammingError, conn)
    else (Returns tt, {| committed := committed conn;
                         in_transaction := committed conn;
                         closed := false |}).

Definition close : on_conn unit :=
  fun conn =>
    (Returns tt, {| committed := committed conn;
                    in_transaction := committed conn;
                    closed := true |}).

(** [with get_connection() as conn: body] on the table [db]: what the
    caller gets and the table afterwards.  Leaving the block calls
    [conn.commit()] when the body returned and [conn.rollback()] when it
    raised; an exception of that call is the one the caller gets. *)
Definition with_get_connection {A} (body : on_conn A) (db : database)
  : outcome A * database :=
  let conn := {| committed := db; in_transaction := db; closed := false |} in
  match body conn with
  | (Returns a, conn') =>
      match commit conn' with
      | (Returns _, conn'') => (Returns a, committed conn'')
      | (Raises e, conn'') => (Raises e, committed conn'')
      end
  | (Raises e, conn') =>
      match rollback conn' with
      | (Returns _, conn'') => (Raises e, committed conn'')
      | (Raises e', conn'') => (Raises e', committed conn'')
      end
  end.

(** ** [add_note_to_db], as its callers see it

    [add_note_to_db(user, note, tags, due_date)] on the table [db]: what the
    caller gets and the table afterwards.  The body calls [conn.close()] in
    front of either [return], inside the [with] block. *)
Definition add_note_to_db_call (user note_ : str) (tags_ : list str) (due : option str)
  : database -> outcome bool * database :=
  let tag_string := tag_string_of tags_ in
  with_get_connection
    (duplicate <-
       execute_select [Some user; Some note_; tag_string; due]
         (fun table =>
            find (fun r => where_holds (duplicate_where user note_ tag_string due r))
                 (notes table)) ;;
     match duplicate with
     | Some _ =>
         _ <- close ;;
         conn_ret false
     | None =>
         _ <- execute_insert user note_ tag_string due ;;
         _ <- commit ;;
         _ <- close ;;
         conn_ret true
     end)%conn.

(** ** The loop of [import_txt_to_db]

    The loop over the lines of the file: the number of notes counted as
    imported, or the exception that ends the loop, and the table afterwards. *)
Fixpoint import_txt_to_db (user : str) (lines : list str) (imported : nat)
    (db : database) : outcome nat * database :=
  match lines with
  | [] => (Returns imported, db)
  | line :: rest =>
      match import_txt_line line with
      | None => import_txt_to_db user rest imported db
      | Some (note_part, tags_, due) =>
          match add_note_to_db_call user note_part tags_ due db with
          | (Returns _, db') => import_txt_to_db user rest (imported + 1) db'
          | (Raises e, db') => (Raises e, db')
          end
      end
  end.

(** ** Tags typed at a prompt

    [[f"#{tag.strip()}" for tag in your_tags.split(",") if tag.strip()]], the
    list the menu's "write a note" and [edit_note_by_id] build from the
    comma-separated tags the user types. *)
Definition tag_list_of (your_tags : str) : list str :=
  map (fun tag => HASH ++ strip tag)
      (filter (fun tag => truthy_str (strip tag)) (split_sep COMMA your_tags)).

(** ** [delete_note_by_id], [db_note_exists] and [edit_note_by_id]

    [delete_note_by_id] and [edit_note_by_id] leave their connection open:
    leaving the [with] block commits what they did, and they return. *)

(** [cursor.execute] raises [OverflowError] for an [int] that does not fit
    SQLite's INTEGER. *)
Definition bind_int (n : Z) : result Z :=
  if sqlite_integer n then Ok n else Raise OverflowError.

(** [WHERE id = ? AND user = ?]. *)
Definition row_matches (user : str) (note_id : Z) (r : db_row) : bool :=
  (row_id r =? note_id)%Z && str_eqb (row_user r) user.

(** [DELETE FROM notes WHERE id = ? AND user = ?]; the AUTOINCREMENT counter
    keeps the greatest id ever given. *)
Definition delete_rows (user : str) (note_id : Z) (db : database) : database :=
  {| notes := filter (fun r => negb (row_matches user note_id r)) (notes db);
     last_id := last_id db |}.

(** [delete_note_by_id(user, note_id)]: the table afterwards. *)
Definition delete_note_by_id (user : str) (note_id : Z) (db : database) : result database :=
  note_id <- bind_int note_id ;;
  Ok (delete_rows user note_id db).

(** [SELECT ... FROM notes WHERE id = ? AND user = ?] and [fetchone()]. *)
Definition select_row (user : str) (note_id : Z) (db : database) : option db_row :=
  find (row_matches user note_id) (notes db).

(** [db_note_exists(user, note_id)]: whether a row came. *)
Definition db_note_exists (user : str) (note_id : Z) (db : database) : result bool :=
  note_id <- bind_int note_id ;;
  Ok (match select_row user note_id db with
      | Some _ => true
      | None => false
      end).

(** [x or ""] for a nullable string. *)
Definition or_empty (o : option str) : str :=
  match o with
  | Some ((_ :: _) as s) => s
  | _ => []
  end.

(** [UPDATE notes Set note = ?, tags = ?, due_date = ? WHERE id = ? AND
    user = ?]. *)
Definition update_rows (user : str) (note_id : Z) (final_note final_tags : str)
    (final_due : option str) (db : database) : database :=
  {| notes :=
       map (fun r =>
              if row_matches user note_id r
              then DbRow (row_id r) (row_user r) final_note (Some final_tags) final_due
              else r)
           (notes db);
     last_id := last_id db |}.

(** [edit_note_by_id(user, note_id)], with the three lines the user types at
    its prompts as arguments: whether the note was found, and the table
    afterwards. *)
Definition edit_note_by_id (user : str) (note_id : Z) (new_note new_tags new_due : str)
    (db : database) : result (bool * database) :=
  note_id <- bind_int note_id ;;
  match select_row user note_id db with
  | None => Ok (false, db)
  | Some row =>
      let old_note := row_note row in
      let old_tags := row_tags row in
      let old_due := row_due_date row in
      let new_note := strip new_note in
      let new_tags := strip new_tags in
      let new_due := strip new_due in
      let final_note := if truthy_str new_note then new_note else old_note in
      let tag_list := tag_list_of new_tags in
      let final_tags :=
        match tag_list with
        | _ :: _ => join SPACE tag_list
        | [] => or_empty old_tags
        end in
      let final_due := if truthy_str new_due then Some new_due else old_due in
      Ok (true, update_rows user note_id final_note final_tags final_due db)
  end.

(** ** [import_json_to_db] *)

(** An object of the JSON array; a field is [None] when the key is missing
    or holds [null]: [item.get] then gives the empty string, the empty list
    or [None], which the code treats alike. *)
Record json_item := JsonItem {
  item_note : option str;
  item_tags : option (list str);
  item_due_date : option str
}.

(** The loop over [data]: the number of notes counted as imported, or the
    exception that ends the loop, and the table afterwards. *)
Fixpoint import_json_to_db (user : str) (data : list json_item) (imported : nat)
    (db : database) : outcome nat * database :=
  match data with
  | [] => (Returns imported, db)
  | item :: rest =>
      match item_note item with
      | Some ((_ :: _) as note_) =>
          let tags_ := match item_tags item with Some t => t | None => [] end in
          match add_note_to_db_call user note_ tags_ (item_due_date item) db with
          | (Returns _, db') => import_json_to_db user rest (imported + 1) db'
          | (Raises e, db') => (Raises e, db')
          end
      | _ => import_json_to_db user rest imported db
      end
  end.

(** ** [show_due_alerts_from_db] *)

(** [SELECT due_date FROM notes WHERE user = ? AND due_date IS NOT NULL]. *)
Definition select_due_dates (user : str) (db : database) : list str :=
  flat_map (fun r => match row_due_date r with Some d => [d] | None => [] end)
           (filter (fun r => str_eqb (row_user r) user) (notes db)).

(** The loop over the due dates, with the two counters. *)
Fixpoint alerts_loop (today : date) (results : list str) (overdue due_today : nat)
  : result (nat * nat) :=
  match results with
  | [] => Ok (overdue, due_today)
  | due :: rest =>
      counters <-
        try_except_ValueError
          (due_date <- strptime_ymd due ;;
           if date_ltb due_date today then Ok (overdue + 1, due_today)
           else if date_eqb due_date today then Ok (overdue, due_today + 1)
           else Ok (overdue, due_today))
          (Ok (overdue, due_today)) ;;
      alerts_loop today rest (fst counters) (snd counters)
  end.

(** [show_due_alerts_from_db()] for the logged-in [user]: the numbers of
    overdue notes and of notes due today that the reminder panel shows. *)
Definition show_due_alerts_from_db (db : database) (today : date) (user : str)
  : result (nat * nat) :=
  alerts_loop today (select_due_dates user db) 0 0.

(** ** [register_user] and [login_user]

    The file [users.txt] is its text, or [None] when it does not exist.  A
    text file is read with universal newlines: ["\r\n"] and ["\r"] become
    ["\n"], and a line ends behind each ["\n"].  [hashlib.sha256] is not
    part of the program: [hash_password] is a parameter. *)

Definition NEWLINE : char := chr "010".
Definition CR : char := chr "013".
Definition COLON : str := lit ":".

Fixpoint universal_newlines (text : str) : str :=
  match text with
  | [] => []
  | c :: rest =>
      if char_eqb c CR
      then match rest with
           | d :: rest' =>
               if char_eqb d NEWLINE then NEWLINE :: universal_newlines rest'
               else NEWLINE :: universal_newlines rest
           | [] => [NEWLINE]
           end
      else c :: universal_newlines rest
  end.

(** The lines of a text, each with its ["\n"]; [cur] is the line being read. *)
Fixpoint lines_from (cur text : str) : list str :=
  match text with
  | [] => match cur with [] => [] | _ :: _ => [cur] end
  | c :: rest =>
      if char_eqb c NEWLINE then (cur ++ [c]) :: lines_from [] rest
      else lines_from (cur ++ [c]) rest
  end.

(** [for line in file]. *)
Definition file_lines (text : str) : list str := lines_from [] (universal_newlines text).

Section Users.

Variable hash_password : str -> str.

(** [register_user()], with the two lines typed at its prompts: the name
    returned ([None] when the name is taken) and the file afterwards. *)
Definition register_user (username password : str) (file : option str)
  : option str * option str :=
  let username := strip username in
  let password := strip password in
  let hashed_pw := hash_password password in
  let taken :=
    match file with
    | Some text => existsb (fun line => startswith line (username ++ COLON)) (file_lines text)
    | None => false
    end in
  if taken then (None, file)
  else
    let entry := username ++ COLON ++ hashed_pw ++ [NEWLINE] in
    (Some username, Some (match file with Some text => text ++ entry | None => entry end)).

(** The loop of [login_user] over the lines of the file. *)
Fixpoint login_loop (username hashed_pw : str) (lines : list str) : result (option str) :=
  match lines with
  | [] => Ok None
  | line :: rest =>
      '(saved_user, saved_pw) <- unpack2 (split_sep COLON (strip line)) ;;
      if str_eqb saved_user username && str_eqb saved_pw hashed_pw
      then Ok (Some username)
      else login_loop username hashed_pw rest
  end.

(** [login_user()], with the two lines typed at its prompts. *)
Definition login_user (username password : str) (file : option str) : result (option str) :=
  let username := strip username in
  let password := strip password in
  let hashed_pw := hash_password password in
  match file with
  | Some text => login_loop username hashed_pw (file_lines text)
  | None => Ok None
  end.

End Users.

(** ** Vocabulary of the further statements *)

(** [ids_fresh db]: the ids of the table are distinct and none is above the
    AUTOINCREMENT counter. *)
Definition ids_fresh (db : database) : Prop :=
  NoDup (map row_id (notes db)) /\
  Forall (fun r => (row_id r <= last_id db)%Z) (notes db).

(** [first_note lines]: what [import_txt_to_db] takes from the first line
    of the file that is not blank. *)
Fixpoint first_note (lines : list str) : option (str * list str * option str) :=
  match lines with
  | [] => None
  | line :: rest =>
      match import_txt_line line with
      | Some fields => Some fields
      | None => first_note rest
      end
  end.

(** [has_note item]: the object has a note, and not the empty one. *)
Definition has_note (item : json_item) : bool :=
  match item_note item with
  | Some (_ :: _) => true
  | _ => false
  end.

(** A character of a hexadecimal digest: [0-9a-f]. *)
Definition is_hex (c : char) : bool :=
  ((48 <=? c) && (c <=? 57) || (97 <=? c) && (c <=? 102))%N.

(** [line_of_user line]: the stripped line is a name and a digest with one
    colon between them, what [login_user] unpacks. *)
Definition line_of_user (line : str) : Prop :=
  exists saved_user saved_pw,
    strip line = saved_user ++ COLON ++ saved_pw /\
    ~ In (chr ":") saved_user /\ ~ In (chr ":") saved_pw.

(** [users_file_ok file]: the file is missing, or is a text without carriage
    returns, of lines that each end with a newline and hold one user. *)
Definition users_file_ok (file : option str) : Prop :=
  match file with
  | None => True
  | Some text =>
      ~ In CR text /\
      (text = [] \/ exists text', text = text' ++ [NEWLINE]) /\
      Forall line_of_user (file_lines text)
  end.

(** A name [input()] can return that a line of the file can hold: no line
    break in it. *)
Definition one_line (s : str) : Prop := ~ In NEWLINE s /\ ~ In CR s.

Definition lines_of (file : option str) : list str :=
  match file with
  | Some text => file_lines text
  | None => []
  end.

(** ** Facts about the string methods *)

Lemma char_eqb_eq (a b : char) : char_eqb a b = true <-> a = b.
Proof. apply N.eqb_eq. Qed.

Lemma char_eqb_refl (a : char) : char_eqb a a = true.
Proof. apply N.eqb_refl. Qed.

Lemma str_eqb_eq (a b : str) : str_eqb a b = true <-> a = b.
Proof.
  revert b; induction a as [|x a IH]; intros [|y b]; simpl; split; intro H;
    try reflexivity; try discriminate.
  - apply andb_true_iff in H as [Hx Ha].
    apply char_eqb_eq in Hx. apply IH in Ha. congruence.
  - injection H as -> ->. rewrite char_eqb_refl. simpl. now apply IH.
Qed.

Lemma startswith_app (s prefix : str) :
  startswith s prefix = true <-> exists rest, s = prefix ++ rest.
Proof.
  revert s; induction prefix as [|p prefix IH]; intros s; simpl.
  - split; [intros _; now exists s | reflexivity].
  - destruct s as [|c s].
    + split; [discriminate | intros [rest H]; discriminate].
    + rewrite andb_true_iff, char_eqb_eq, IH. split.
      * intros [-> [rest ->]]. now exists rest.
      * intros [rest H]. injection H as -> ->. split; [reflexivity | now exists rest].
Qed.

Lemma startswith_nil (s : str) : startswith s [] = true.
Proof. now destruct s. Qed.

Lemma occurs_at_O (sub s : str) : occurs_at sub s 0 <-> startswith s sub = true.
Proof.
  rewrite startswith_app. split.
  - intros (before & after & -> & Hlen).
    destruct before; [now exists after | discriminate].
  - intros [rest ->]. now exists [], rest.
Qed.

Lemma occurs_at_S (sub : str) (c : char) (s : str) (i : nat) :
  occurs_at sub (c :: s) (S i) <-> occurs_at sub s i.
Proof.
  split.
  - intros (before & after & Heq & Hlen).
    destruct before as [|b before]; [discriminate|].
    injection Heq as -> ->. injection Hlen as Hlen. now exists before, after.
  - intros (before & after & -> & Hlen).
    exists (c :: before), after. simpl. now rewrite Hlen.
Qed.

Lemma occurs_at_nil (sub : str) (i : nat) :
  occurs_at sub [] i -> i = 0 /\ sub = [].
Proof.
  intros (before & after & Heq & Hlen).
  symmetry in Heq. apply app_eq_nil in Heq as [-> Heq].
  apply app_eq_nil in Heq as [-> _]. now subst.
Qed.

Lemma contains_occurs (sub s : str) : contains sub s = true <-> occurs sub s.
Proof.
  induction s as [|c s IH]; simpl.
  - rewrite orb_false_r, <- occurs_at_O. split.
    + intros H. now exists 0.
    + intros [i H]. destruct (occurs_at_nil _ _ H) as [-> _]. exact H.
  - rewrite orb_true_iff, IH, <- occurs_at_O. split.
    + intros [H | [i H]]; [now exists 0 | exists (S i); now apply occurs_at_S].
    + intros [[|i] H]; [now left | right; exists i; now apply occurs_at_S in H].
Qed.

(** [rfind] returns an index at which [sub] occurs, and the greatest one. *)
Lemma rfind_Some (sub s : str) (i : nat) :
  rfind sub s = Some i ->
  occurs_at sub s i /\ forall j, occurs_at sub s j -> j <= i.
Proof.
  revert i; induction s as [|c s IH]; intros i; simpl.
  - destruct sub as [|p sub]; simpl; [|discriminate].
    intros [= <-]. split; [now exists [], [] |].
    intros j H. apply occurs_at_nil in H as [-> _]. lia.
  - destruct (rfind sub s) as [k|] eqn:Hk.
    + intros [= <-]. destruct (IH k eq_refl) as [Hat Hmax]. split.
      * now apply occurs_at_S.
      * intros [|j] H; [lia|]. apply occurs_at_S in H. apply Hmax in H. lia.
    + destruct (startswith (c :: s) sub) eqn:Hsw; [|discriminate].
      intros [= <-]. split; [now apply occurs_at_O |].
      intros [|j] H; [lia|]. apply occurs_at_S in H.
      exfalso. clear IH Hsw.
      revert j H. induction s as [|d s IHs]; intros j H.
      * simpl in Hk. apply occurs_at_nil in H as [-> ->]. discriminate.
      * simpl in Hk. destruct (rfind sub s) as [k|] eqn:Hk'; [discriminate|].
        destruct (startswith (d :: s) sub) eqn:Hsw; [discriminate|].
        destruct j as [|j].
        -- apply occurs_at_O in H. congruence.
        -- apply occurs_at_S in H. now apply (IHs eq_refl j).
Qed.

Lemma rfind_None (sub s : str) : rfind sub s = None -> ~ occurs sub s.
Proof.
  induction s as [|c s IH]; simpl.
  - destruct sub as [|p sub]; simpl; [discriminate|].
    intros _ [i H]. apply occurs_at_nil in H as [_ H]. discriminate.
  - destruct (rfind sub s) as [k|]; [discriminate|].
    destruct (startswith (c :: s) sub) eqn:Hsw; [discriminate|].
    intros _ [[|i] H].
    + apply occurs_at_O in H. congruence.
    + apply occurs_at_S in H. apply IH; [reflexivity | now exists i].
Qed.

Lemma rfind_occurs (sub s : str) :
  occurs sub s -> exists i, rfind sub s = Some i.
Proof.
  intros H. destruct (rfind sub s) as [i|] eqn:E; [now exists i|].
  now apply rfind_None in E.
Qed.

Lemma occurs_at_split (sub s : str) (i : nat) :
  occurs_at sub s i -> s = firstn i s ++ sub ++ skipn (i + length sub) s.
Proof.
  intros (before & after & -> & <-).
  rewrite firstn_app, Nat.sub_diag, firstn_all. simpl. rewrite app_nil_r.
  f_equal. rewrite skipn_app.
  replace (length before + length sub - length before) with (length sub) by lia.
  rewrite (skipn_all2 before) by lia. simpl.
  rewrite skipn_app, Nat.sub_diag, skipn_all. reflexivity.
Qed.

(** *** Whitespace: [lstrip], [rstrip], [strip] *)

Lemma blank_app (a b : str) : blank (a ++ b) <-> blank a /\ blank b.
Proof. apply Forall_app. Qed.

Lemma blank_rev (a : str) : blank (rev a) <-> blank a.
Proof.
  unfold blank. rewrite !Forall_forall. split; intros H x Hx; apply H.
  - now apply in_rev in Hx.
  - now apply in_rev.
Qed.

Lemma lstrip_spec (s : str) :
  exists l, s = l ++ lstrip s /\ blank l /\ first_not_space (lstrip s).
Proof.
  induction s as [|c s (l & Heq & Hl & Hhd)]; simpl.
  - exists []. repeat split. constructor.
  - destruct (is_space c) eqn:Hc.
    + exists (c :: l). repeat split; [simpl; congruence | now constructor | exact Hhd].
    + exists []. repeat split; [constructor | exact Hc].
Qed.

Lemma lstrip_blank (l s : str) : blank l -> lstrip (l ++ s) = lstrip s.
Proof.
  induction 1 as [|c l Hc _ IH]; simpl; [reflexivity|]. now rewrite Hc.
Qed.

Lemma lstrip_fixed (s : str) : first_not_space s -> lstrip s = s.
Proof. destruct s as [|c s]; simpl; [reflexivity | now intros ->]. Qed.

Lemma rstrip_spec (s : str) :
  exists r, s = rstrip s ++ r /\ blank r /\ first_not_space (rev (rstrip s)).
Proof.
  unfold rstrip. destruct (lstrip_spec (rev s)) as (l & Heq & Hl & Hhd).
  exists (rev l). rewrite rev_involutive. repeat split.
  - rewrite <- rev_app_distr, <- Heq. now rewrite rev_involutive.
  - now apply blank_rev.
  - exact Hhd.
Qed.

Lemma rstrip_fixed (s : str) : first_not_space (rev s) -> rstrip s = s.
Proof.
  intros H. unfold rstrip. rewrite lstrip_fixed by exact H. apply rev_involutive.
Qed.

Lemma rstrip_blank (s r : str) : blank r -> rstrip (s ++ r) = rstrip s.
Proof.
  intros Hr. unfold rstrip. rewrite rev_app_distr, lstrip_blank; [reflexivity|].
  now apply blank_rev.
Qed.

(** [rstrip] keeps a first character that is not whitespace. *)
Lemma rstrip_first (s : str) : first_not_space s -> first_not_space (rstrip s).
Proof.
  intros Hs. destruct (rstrip_spec s) as (r & Heq & Hr & _).
  destruct (rstrip s) as [|x t]; [exact I|].
  rewrite Heq in Hs. exact Hs.
Qed.

Lemma strip_trimmed (s : str) : trimmed s (strip s).
Proof.
  unfold trimmed, strip.
  destruct (lstrip_spec s) as (l & Hl & Hbl & Hhd).
  destruct (rstrip_spec (lstrip s)) as (r & Hr & Hbr & Hlast).
  split; [|split].
  - exists l, r. repeat split; try assumption. now rewrite <- Hr.
  - now apply rstrip_first.
  - exact Hlast.
Qed.

Lemma strip_fixed (t : str) :
  first_not_space t -> first_not_space (rev t) -> strip t = t.
Proof.
  intros H1 H2. unfold strip. rewrite lstrip_fixed by exact H1.
  now apply rstrip_fixed.
Qed.

Lemma strip_blank (s : str) : blank s -> strip s = [].
Proof.
  intros H. unfold strip.
  rewrite <- (app_nil_r s), lstrip_blank by exact H. reflexivity.
Qed.

(** *** Trailing characters: [rstrip(chars)] *)

Lemma char_in_single (c x : char) : char_in [c] x = true <-> x = c.
Proof.
  unfold char_in. simpl. rewrite orb_false_r. apply char_eqb_eq.
Qed.

Lemma lstrip_chars_spec (c : char) (s : str) :
  exists k, s = repeat c k ++ lstrip_chars [c] s /\
            match lstrip_chars [c] s with [] => True | x :: _ => x <> c end.
Proof.
  induction s as [|x s (k & Heq & Hhd)]; cbn [lstrip_chars].
  - now exists 0.
  - destruct (char_in [c] x) eqn:Hx.
    + apply char_in_single in Hx as ->. exists (S k). cbn [repeat app].
      split; [congruence | exact Hhd].
    + exists 0. split; [reflexivity|]. intros ->.
      assert (char_in [c] c = true) by now apply char_in_single. congruence.
Qed.

Lemma rev_repeat (c : char) (k : nat) : rev (repeat c k) = repeat c k.
Proof.
  induction k as [|k IH]; [reflexivity|]. simpl. rewrite IH.
  clear IH. induction k as [|k IH]; [reflexivity|]. simpl. now rewrite IH.
Qed.

Lemma rstrip_chars_spec (c : char) (s : str) :
  without_trailing c s (rstrip_chars [c] s).
Proof.
  unfold without_trailing, rstrip_chars.
  destruct (lstrip_chars_spec c (rev s)) as (k & Heq & Hhd). split.
  - exists k. rewrite <- (rev_repeat c k), <- rev_app_distr, <- Heq.
    now rewrite rev_involutive.
  - now rewrite rev_involutive.
Qed.

Lemma lstrip_chars_repeat (c : char) (k : nat) (s : str) :
  lstrip_chars [c] (repeat c k ++ s) = lstrip_chars [c] s.
Proof.
  induction k as [|k IH]; [reflexivity|]. cbn [repeat app lstrip_chars].
  assert (char_in [c] c = true) as -> by now apply char_in_single. exact IH.
Qed.

Lemma rstrip_chars_repeat (c : char) (k : nat) (s : str) :
  rstrip_chars [c] (s ++ repeat c k) = rstrip_chars [c] s.
Proof.
  unfold rstrip_chars. now rewrite rev_app_distr, rev_repeat, lstrip_chars_repeat.
Qed.

(** *** Words: [split()] *)

Lemma split_ws_from_blank (ws s : str) :
  blank ws -> split_ws_from [] (ws ++ s) = split_ws_from [] s.
Proof.
  induction 1 as [|c ws Hc _ IH]; simpl; [reflexivity|]. now rewrite Hc.
Qed.

Lemma split_ws_from_word (cur w s : str) :
  Forall (fun c => is_space c = false) w ->
  split_ws_from cur (w ++ s) = split_ws_from (cur ++ w) s.
Proof.
  intros Hw. revert cur. induction Hw as [|c w Hc _ IH]; intros cur; simpl.
  - now rewrite app_nil_r.
  - rewrite Hc, IH, <- app_assoc. reflexivity.
Qed.

Lemma split_ws_from_end (cur rest : str) :
  cur <> [] -> starts_blank rest ->
  split_ws_from cur rest = cur :: split_ws_from [] rest.
Proof.
  intros Hcur Hrest. destruct cur as [|x cur]; [contradiction|].
  destruct rest as [|c rest]; simpl; [reflexivity|].
  simpl in Hrest. now rewrite Hrest.
Qed.

Lemma split_ws_from_all_blank (cur ws : str) :
  blank ws -> split_ws_from cur ws = split_ws_from cur [].
Proof.
  intros Hws. revert cur. induction Hws as [|c ws Hc _ IH]; intros cur; [reflexivity|].
  simpl. rewrite Hc. destruct cur; rewrite IH; reflexivity.
Qed.

Lemma split_ws_from_trailing (cur s ws : str) :
  blank ws -> split_ws_from cur (s ++ ws) = split_ws_from cur s.
Proof.
  intros Hws. revert cur. induction s as [|c s IH]; intros cur.
  - now apply split_ws_from_all_blank.
  - simpl. destruct (is_space c); [destruct cur|]; now rewrite ?IH.
Qed.

Lemma split_ws_strip (s : str) : split_ws (strip s) = split_ws s.
Proof.
  destruct (strip_trimmed s) as [(l & r & Heq & Hl & Hr) _].
  unfold split_ws. rewrite Heq at 2.
  now rewrite split_ws_from_blank, split_ws_from_trailing.
Qed.

Lemma tokens_of_cons_space (c : char) (s : str) (toks : list str) :
  is_space c = true -> tokens_of s toks -> tokens_of (c :: s) toks.
Proof.
  intros Hc H. destruct H as [ws Hws | ws w rest toks Hws Hw Hrest Htoks].
  - constructor. now constructor.
  - change (c :: ws ++ w ++ rest) with ((c :: ws) ++ w ++ rest).
    constructor; try assumption. now constructor.
Qed.

Lemma split_ws_from_tokens (s cur : str) :
  Forall (fun c => is_space c = false) cur ->
  tokens_of (cur ++ s) (split_ws_from cur s).
Proof.
  revert cur. induction s as [|c s IH]; intros cur Hcur.
  - simpl. destruct cur as [|x cur].
    + constructor. constructor.
    + apply (tokens_word [] (x :: cur) [] []); try easy; repeat constructor.
  - simpl. destruct (is_space c) eqn:Hc.
    + destruct cur as [|x cur].
      * simpl. apply tokens_of_cons_space; [exact Hc|]. now apply (IH []).
      * apply (tokens_word [] (x :: cur) (c :: s)); try easy.
        -- constructor.
        -- apply tokens_of_cons_space; [exact Hc|]. now apply (IH []).
    + replace (cur ++ c :: s) with ((cur ++ [c]) ++ s) by now rewrite <- app_assoc.
      apply IH. apply Forall_app. split; [exact Hcur | now constructor].
Qed.

(** [split()] returns the whitespace-delimited tokens, and they are the
    only list [tokens_of] accepts. *)
Lemma split_ws_tokens (s : str) : tokens_of s (split_ws s).
Proof. apply (split_ws_from_tokens s []). constructor. Qed.

Lemma tokens_of_split_ws (s : str) (toks : list str) :
  tokens_of s toks -> split_ws s = toks.
Proof.
  unfold split_ws. induction 1 as [ws Hws | ws w rest toks Hws [Hne Hw] Hrest _ IH].
  - rewrite <- (app_nil_r ws). now rewrite split_ws_from_blank.
  - rewrite split_ws_from_blank by exact Hws.
    rewrite split_ws_from_word by exact Hw. simpl.
    rewrite split_ws_from_end by assumption. now rewrite IH.
Qed.



Lemma trimmed_strip (s t : str) : trimmed s t -> strip s = t.
Proof.
  intros [(l & r & -> & Hl & Hr) [H1 H2]]. unfold strip.
  rewrite lstrip_blank by exact Hl.
  destruct t as [|c t].
  - simpl. rewrite <- (app_nil_r r), lstrip_blank by exact Hr. reflexivity.
  - rewrite lstrip_fixed by exact H1. rewrite rstrip_blank by exact Hr.
    now apply rstrip_fixed.
Qed.

Lemma without_trailing_rstrip (c : char) (s t : str) :
  without_trailing c s t -> rstrip_chars [c] s = t.
Proof.
  intros [[k ->] Hlast]. rewrite rstrip_chars_repeat.
  unfold rstrip_chars. destruct (rev t) as [|x u] eqn:E.
  - simpl. apply (f_equal (@rev _)) in E. now rewrite rev_involutive in E.
  - cbn [lstrip_chars]. destruct (char_in [c] x) eqn:Hx.
    + now apply char_in_single in Hx.
    + rewrite <- E. apply rev_involutive.
Qed.

(** *** [join] of words *)

Lemma word_first (w : str) : word w -> first_not_space w /\ first_not_space (rev w).
Proof.
  intros [Hne Hw]. split.
  - destruct w as [|c w]; [exact I | now inversion Hw].
  - destruct (rev w) as [|c u] eqn:E; [exact I|]. simpl.
    rewrite Forall_forall in Hw. apply Hw, in_rev. rewrite E. now left.
Qed.

Lemma join_cons (sep p : str) (rest : list str) :
  rest <> [] -> join sep (p :: rest) = p ++ sep ++ join sep rest.
Proof. destruct rest; [contradiction | reflexivity]. Qed.

Lemma join_words_tokens (toks : list str) :
  Forall word toks -> tokens_of (join SPACE toks) toks.
Proof.
  induction 1 as [|w toks Hw Htoks IH].
  - constructor. constructor.
  - destruct toks as [|w2 toks].
    + assert (T : tokens_of ([] ++ w ++ []) [w])
        by (apply tokens_word; try easy; repeat constructor).
      simpl in T. now rewrite app_nil_r in T.
    + rewrite join_cons by discriminate.
      apply (tokens_word [] w (SPACE ++ join SPACE (w2 :: toks)));
        [constructor | exact Hw | reflexivity |].
      apply tokens_of_cons_space; [reflexivity | exact IH].
Qed.

Lemma split_ws_join (toks : list str) :
  Forall word toks -> split_ws (join SPACE toks) = toks.
Proof. intros H. now apply tokens_of_split_ws, join_words_tokens. Qed.

Lemma join_words_first (toks : list str) :
  Forall word toks -> first_not_space (join SPACE toks).
Proof.
  intros H. destruct H as [|w toks Hw Htoks]; [exact I|].
  destruct (word_first w Hw) as [H1 _]. destruct Hw as [Hne _].
  destruct w as [|c w]; [contradiction|].
  destruct toks; exact H1.
Qed.

Lemma join_words_last (toks : list str) :
  Forall word toks -> first_not_space (rev (join SPACE toks)).
Proof.
  induction 1 as [|w toks Hw Htoks IH]; [exact I|].
  destruct toks as [|w2 toks].
  - simpl. now apply word_first.
  - rewrite join_cons by discriminate. rewrite !rev_app_distr.
    destruct (rev (join SPACE (w2 :: toks))) as [|c u] eqn:E; [|exact IH].
    exfalso. apply (f_equal (@rev _)) in E. rewrite rev_involutive in E.
    inversion Htoks as [|? ? [Hne _] _]; subst.
    destruct w2; [contradiction|]. destruct toks; discriminate.
Qed.

Lemma strip_join_words (toks : list str) :
  Forall word toks -> strip (join SPACE toks) = join SPACE toks.
Proof.
  intros H. apply strip_fixed; [now apply join_words_first | now apply join_words_last].
Qed.


Lemma is_tag_first (w : str) : is_tag w = true <-> exists rest, w = chr "#" :: rest.
Proof. unfold is_tag. rewrite startswith_app. reflexivity. Qed.

(** *** [parse_note], unfolded *)

Lemma parse_note_plain (raw : str) :
  ~ occurs DUE raw -> parse_note raw = Ok (parse_of raw None).
Proof.
  intros H. unfold parse_note.
  destruct (contains DUE raw) eqn:E; [now apply contains_occurs in E | reflexivity].
Qed.

Lemma parse_note_marker (raw before after : str) :
  last_occurrence DUE raw before after ->
  parse_note raw =
  Ok (parse_of before (Some (strip (rstrip_chars RBRACKET after)))).
Proof.
  intros [Heq Hmax]. unfold parse_note.
  assert (Hat : occurs_at DUE raw (length before)) by now exists before, after.
  assert (Hocc : occurs DUE raw) by now exists (length before).
  apply contains_occurs in Hocc as ->.
  unfold rsplit1. destruct (rfind DUE raw) as [i|] eqn:Hi.
  - apply rfind_Some in Hi as [Hi Himax].
    assert (i = length before) as ->.
    { apply Nat.le_antisymm; [now apply Hmax | now apply Himax]. }
    pose proof (occurs_at_split _ _ _ Hat) as Hsplit.
    rewrite Heq in Hsplit at 1.
    assert (Hb : firstn (length before) raw = before).
    { rewrite Heq, firstn_app, Nat.sub_diag, firstn_all. simpl. apply app_nil_r. }
    rewrite Hb in *. apply app_inv_head in Hsplit. apply app_inv_head in Hsplit.
    rewrite <- Hsplit. reflexivity.
  - exfalso. apply rfind_None in Hi. apply Hi. now exists (length before).
Qed.

(** Every text with the marker has a last occurrence of it. *)
Lemma last_occurrence_exists (sub s : str) :
  occurs sub s -> exists before after, last_occurrence sub s before after.
Proof.
  intros H. apply rfind_occurs in H as [i Hi].
  apply rfind_Some in Hi as [Hat Hmax].
  pose proof (occurs_at_split _ _ _ Hat) as Hsplit.
  exists (firstn i s), (skipn (i + length sub) s). split; [exact Hsplit|].
  intros j Hj. apply Hmax in Hj. destruct Hat as (b & a & -> & <-).
  rewrite firstn_app, Nat.sub_diag, firstn_all. simpl. rewrite app_nil_r. exact Hj.
Qed.

(** ** [parse_note] *)

Lemma not_occurs_contains (sub s : str) : contains sub s = false -> ~ occurs sub s.
Proof. intros E H. apply contains_occurs in H. congruence. Qed.

Lemma rfind_last_occurrence (sub s before after : str) :
  rfind sub s = Some (length before) -> s = before ++ sub ++ after ->
  last_occurrence sub s before after.
Proof.
  intros Hi Heq. split; [exact Heq|]. now apply rfind_Some in Hi as [_ Hmax].
Qed.

(** The two ways through [parse_note]. *)
Lemma parse_note_cases (raw : str) :
  (~ occurs DUE raw /\ parse_note raw = Ok (parse_of raw None)) \/
  (exists before after,
      last_occurrence DUE raw before after /\
      parse_note raw
      = Ok (parse_of before (Some (strip (rstrip_chars RBRACKET after))))).
Proof.
  destruct (contains DUE raw) eqn:E.
  - apply contains_occurs, last_occurrence_exists in E as (before & after & H).
    right. exists before, after. split; [exact H | now apply parse_note_marker].
  - apply not_occurs_contains in E. left. split; [exact E | now apply parse_note_plain].
Qed.

(** C7: [parse_note] raises no exception, whatever the text, and the empty
    text gives the empty body, no tags and no due date. *)
Theorem parse_note_total :
  (forall raw : str, exists n, parse_note raw = Ok n) /\
  parse_note [] = Ok {| note := []; tags := []; due_date := None |}.
Proof.
  split; [|reflexivity].
  intros raw. destruct (parse_note_cases raw) as [[_ H] | (before & after & _ & H)];
    rewrite H; eexists; reflexivity.
Qed.

(** C3, as amended: with the marker in the text, [parse_note] splits at its
    last occurrence and the due date is the text behind it, without its whole
    trailing run of closing brackets and then trimmed of whitespace; without
    the marker there is no due date. *)
Theorem parse_note_due_date (raw : str) :
  exists n, parse_note raw = Ok n /\
    ((~ occurs DUE raw /\ due_date n = None) \/
     (exists before after core due,
        last_occurrence DUE raw before after /\
        without_trailing (chr "]") after core /\
        trimmed core due /\
        due_date n = Some due)).
Proof.
  destruct (parse_note_cases raw) as [[Hno H] | (before & after & Hlast & H)];
    rewrite H; eexists; (split; [reflexivity|]).
  - now left.
  - right. exists before, after, (rstrip_chars RBRACKET after),
      (strip (rstrip_chars RBRACKET after)).
    split; [exact Hlast|]. split; [apply (rstrip_chars_spec (chr "]"))|].
    split; [apply strip_trimmed | reflexivity].
Qed.

(** C3, as stated, fails: behind the marker of ["pay rent [due:2025-01-01]]"]
    stands ["2025-01-01]]"]; taking one bracket off leaves ["2025-01-01]"],
    and [parse_note] returns ["2025-01-01"]. *)
Lemma parse_note_due_date_two_brackets :
  last_occurrence DUE (lit "pay rent [due:2025-01-01]]")
                  (lit "pay rent ") (lit "2025-01-01]]") /\
  due_one_bracket_stripped (lit "2025-01-01]]") = lit "2025-01-01]" /\
  parse_note (lit "pay rent [due:2025-01-01]]")
  = Ok {| note := lit "pay rent"; tags := []; due_date := Some (lit "2025-01-01") |} /\
  Some (lit "2025-01-01") <> Some (due_one_bracket_stripped (lit "2025-01-01]]")).
Proof.
  split; [|split; [|split]].
  - now apply rfind_last_occurrence.
  - reflexivity.
  - reflexivity.
  - discriminate.
Qed.



Lemma last_occurrence_unique (sub s b1 a1 b2 a2 : str) :
  last_occurrence sub s b1 a1 -> last_occurrence sub s b2 a2 -> b1 = b2 /\ a1 = a2.
Proof.
  intros [H1 M1] [H2 M2].
  assert (Hlen : length b1 = length b2).
  { apply Nat.le_antisymm; [apply M2 | apply M1].
    - exists b1, a1. now split.
    - exists b2, a2. now split. }
  rewrite H1 in H2. apply app_eq_app in H2 as [l [[-> H2] | [-> H2]]];
    rewrite length_app in Hlen; destruct l; simpl in Hlen; try lia;
    rewrite app_nil_r; simpl in H2; apply app_inv_head in H2; auto.
Qed.

Lemma occurs_at_nth (c : char) (sub s : str) (j : nat) :
  occurs_at (c :: sub) s j -> nth_error s j = Some c.
Proof.
  intros (before & after & -> & <-).
  rewrite nth_error_app2 by lia. now rewrite Nat.sub_diag.
Qed.

(** Behind a marker followed by no opening bracket there is no other marker. *)
Lemma last_occurrence_no_bracket (before after : str) :
  Forall (fun c => c <> chr "[") after ->
  last_occurrence DUE (before ++ DUE ++ after) before after.
Proof.
  intros Hafter. split; [reflexivity|].
  intros j Hj. destruct (Nat.le_gt_cases j (length before)) as [|Hgt]; [assumption|].
  exfalso. apply occurs_at_nth in Hj.
  rewrite nth_error_app2 in Hj by lia.
  remember (j - length before) as k eqn:Hk.
  destruct k as [|k]; [lia|]. cbn in Hj.
  do 4 (destruct k as [|k]; [discriminate|]). cbn in Hj.
  apply nth_error_In in Hj. rewrite Forall_forall in Hafter.
  now apply (Hafter _ Hj).
Qed.

Lemma blank_no_bracket (ws : str) (c : char) :
  blank ws -> is_space c = false -> Forall (fun x => x <> c) ws.
Proof.
  intros Hws Hc. eapply Forall_impl; [|exact Hws].
  intros x Hx ->. simpl in Hx. congruence.
Qed.

Lemma due_loop_skips_no_due (today week_later : date) (mode : str)
    (id_ : Z) (note_ : str) (tags_ : option str) (rest filtered : list note_row) :
  due_loop today week_later mode ((id_, note_, tags_, None) :: rest) filtered
  = due_loop today week_later mode rest filtered /\
  due_loop today week_later mode ((id_, note_, tags_, Some []) :: rest) filtered
  = due_loop today week_later mode rest filtered.
Proof. split; reflexivity. Qed.

(** C10, as amended: when the last marker is followed by whitespace only and
    then by closing brackets only, [parse_note] returns the empty string as
    due date, which is not [None]; the classification loop passes over a row
    with either value, and [build_note_from_json] writes no marker for
    either. *)
Theorem parse_note_empty_due_date (before ws : str) (k : nat) :
  blank ws ->
  (exists n, parse_note (before ++ DUE ++ ws ++ repeat (chr "]") k) = Ok n /\
             due_date n = Some [] /\ due_date n <> None) /\
  (forall today week_later mode id_ note_ tags_,
      due_loop today week_later mode [(id_, note_, tags_, Some [])] [] = Ok [] /\
      due_loop today week_later mode [(id_, note_, tags_, None)] [] = Ok []) /\
  (forall note_ tags_,
      build_note_from_json {| note := note_; tags := tags_; due_date := Some [] |}
      = build_note_from_json {| note := note_; tags := tags_; due_date := None |}).
Proof.
  intros Hws. split; [|split; [split; reflexivity | reflexivity]].
  assert (Hlast : last_occurrence DUE (before ++ DUE ++ ws ++ repeat (chr "]") k)
                                  before (ws ++ repeat (chr "]") k)).
  { apply last_occurrence_no_bracket. apply Forall_app. split.
    - now apply blank_no_bracket.
    - apply Forall_forall. intros x Hx. apply repeat_spec in Hx. now subst. }
  eexists. split; [now apply parse_note_marker with (1 := Hlast)|].
  cbn [due_date parse_of]. split; [|discriminate].
  f_equal. change RBRACKET with [chr "]"]. rewrite rstrip_chars_repeat.
  destruct (rstrip_chars_spec (chr "]") ws) as [[j Hj] _].
  apply strip_blank. rewrite Hj in Hws. now apply blank_app in Hws.
Qed.

Lemma parse_note_empty_due_date_witness :
  blank (lit " ") /\
  exists n, parse_note (lit "task " ++ DUE ++ lit " " ++ repeat (chr "]") 2) = Ok n /\
            due_date n = Some [].
Proof.
  assert (H : blank (lit " ")) by (repeat constructor).
  split; [exact H|].
  destruct (parse_note_empty_due_date (lit "task ") (lit " ") 2 H)
    as [(n & Hn & Hdue & _) _].
  now exists n.
Defined.

(** C10, as stated, fails: in ["task [due:] "] the marker is followed by a
    closing bracket and a space only, and the due date returned is ["]"]:
    the trailing space shields the bracket from [rstrip("]")]. *)
Lemma parse_note_bracket_then_space :
  last_occurrence DUE (lit "task [due:] ") (lit "task ") (lit "] ") /\
  Forall (fun c => c = chr "]" \/ is_space c = true) (lit "] ") /\
  parse_note (lit "task [due:] ")
  = Ok {| note := lit "task"; tags := []; due_date := Some (lit "]") |} /\
  Some (lit "]") <> Some (@nil char).
Proof.
  split; [|split; [|split]].
  - now apply rfind_last_occurrence.
  - repeat constructor; now right.
  - reflexivity.
  - discriminate.
Qed.

(** ** [view_due_notes] *)

Lemma make_date_raises (y m d : Z) (e : exn) :
  make_date y m d = Raise e -> e = ValueError.
Proof. unfold make_date. destruct (_ && _); [discriminate | congruence]. Qed.

Lemma strptime_ymd_raises (s : str) (e : exn) :
  strptime_ymd s = Raise e -> e = ValueError.
Proof.
  unfold strptime_ymd. destruct (re_ymd s) as [|[[[y m] d] [|c rest]] l];
    try congruence. apply make_date_raises.
Qed.

Section DueLoop.

Variables (today week_later : date) (mode : str).

(** The loop is a filter: it keeps the rows that [row_selected] accepts,
    behind those it was given. *)
Lemma due_loop_filter (results filtered : list note_row) :
  due_loop today week_later mode results filtered
  = Ok (filtered ++ filter (row_selected today week_later mode) results).
Proof.
  revert filtered. induction results as [|row results IH]; intros filtered.
  - simpl. now rewrite app_nil_r.
  - destruct row as [[[id_ note_] tags_] [[|c due]|]]; cbn [due_loop filter];
      unfold row_selected; cbn [snd]; try apply IH.
    destruct (strptime_ymd (c :: due)) as [d|e] eqn:Hd.
    + cbn [bind try_except_ValueError].
      destruct (str_eqb mode (lit "today") && date_eqb d today);
        [|destruct (str_eqb mode (lit "overdue") && date_ltb d today);
          [|destruct (str_eqb mode (lit "week")
                      && (date_leb today d && date_leb d week_later))]];
        cbn [bind try_except_ValueError orb]; rewrite IH;
        rewrite <- ?app_assoc; reflexivity.
    + apply strptime_ymd_raises in Hd as Hv. subst e.
      cbn [bind try_except_ValueError]. apply IH.
Qed.

Lemma row_selected_matches (row : note_row) :
  row_selected today week_later mode row = true <->
  exists due d, snd row = Some due /\ due <> [] /\ strptime_ymd due = Ok d /\
                due_matches today week_later mode d.
Proof.
  unfold row_selected, due_matches.
  destruct (snd row) as [[|c due]|].
  - split; [discriminate | intros (x & d & [= <-] & H & _); contradiction].
  - destruct (strptime_ymd (c :: due)) as [d|e] eqn:Hd.
    + rewrite !orb_true_iff, !andb_true_iff, !str_eqb_eq.
      unfold date_eqb, date_ltb, date_leb.
      rewrite Z.eqb_eq, Z.ltb_lt, !Z.leb_le. split.
      * intros H. exists (c :: due), d. repeat split; try easy. tauto.
      * intros (x & d' & [= <-] & _ & Hd' & H). rewrite Hd in Hd'.
        injection Hd' as <-. tauto.
    + split; [discriminate|]. intros (x & d & [= <-] & _ & Hd' & _). congruence.
  - split; [discriminate | intros (x & d & [=] & _)].
Qed.

End DueLoop.

Lemma filter_Subsequence {A} (f : A -> bool) (l : list A) : Subsequence (filter f l) l.
Proof.
  induction l as [|x l IH]; simpl; [constructor|].
  destruct (f x); now constructor.
Qed.

Lemma Subsequence_In {A} (l1 l2 : list A) (x : A) :
  Subsequence l1 l2 -> In x l1 -> In x l2.
Proof.
  induction 1 as [|y l1 l2 _ IH|y l1 l2 _ IH]; simpl; intuition.
Qed.

Lemma view_due_notes_due_loop (db : database) (today : date) (user mode : str) :
  (1 <= toordinal today + 7 <= MAXORDINAL)%Z ->
  view_due_notes db today user mode
  = due_loop today (Date (toordinal today + 7)) mode (select_notes user db) [].
Proof.
  intros [Hlo Hhi]. unfold view_due_notes, date_add_days.
  apply Z.leb_le in Hlo, Hhi. now rewrite Hlo, Hhi.
Qed.

(** C5: with the reference date [D], mode ["week"] selects exactly the rows
    whose parsed due date lies between [D] and [D] + 7 days, both ends
    included, mode ["today"] exactly those dated [D], and mode ["overdue"]
    exactly those dated before [D]. *)
Theorem view_due_notes_modes (db : database) (D : date) (user mode : str) :
  (1 <= toordinal D + 7 <= MAXORDINAL)%Z ->
  exists filtered,
    view_due_notes db D user mode = Ok filtered /\
    forall row,
      In row filtered <->
      In row (select_notes user db) /\
      exists due d,
        snd row = Some due /\ due <> [] /\ strptime_ymd due = Ok d /\
        ((mode = lit "today" /\ toordinal d = toordinal D) \/
         (mode = lit "overdue" /\ (toordinal d < toordinal D)%Z) \/
         (mode = lit "week" /\
          (toordinal D <= toordinal d <= toordinal D + 7)%Z)).
Proof.
  intros HD. rewrite view_due_notes_due_loop by exact HD.
  rewrite due_loop_filter. eexists. split; [reflexivity|].
  intros row. cbn [app]. rewrite filter_In, row_selected_matches. reflexivity.
Qed.

Lemma view_due_notes_modes_witness :
  exists filtered,
    view_due_notes
      {| notes := [DbRow 1 (lit "ann") (lit "pay rent") None (Some (lit "2025-08-04"));
                   DbRow 2 (lit "ann") (lit "call mom") None (Some (lit "2025-08-05"))];
         last_id := 2 |}
      (Date 739460) (lit "ann") (lit "week") = Ok filtered /\
    In (1%Z, lit "pay rent", None, Some (lit "2025-08-04")) filtered.
Proof.
  assert (H : (1 <= toordinal (Date 739460) + 7 <= MAXORDINAL)%Z)
    by (split; discriminate).
  destruct (view_due_notes_modes
              {| notes := [DbRow 1 (lit "ann") (lit "pay rent") None
                                 (Some (lit "2025-08-04"));
                           DbRow 2 (lit "ann") (lit "call mom") None
                                 (Some (lit "2025-08-05"))];
                 last_id := 2 |}
              (Date 739460) (lit "ann") (lit "week") H) as (filtered & Hrun & Hin).
  exists filtered. split; [exact Hrun|].
  apply Hin. split; [now left|].
  exists (lit "2025-08-04"), (Date 739467).
  repeat split; try discriminate. right; right. repeat split; discriminate.
Defined.

(** With 2025-07-28 as reference date, the week holds the notes dated
    2025-07-28 and 2025-08-04, seven days later, and neither the one dated
    2025-08-05 nor the one dated 2025-07-27. *)
Example view_due_notes_week_ends :
  strptime_ymd (lit "2025-07-28") = Ok (Date 739460) /\
  view_due_notes
    {| notes := [DbRow 1 (lit "ann") (lit "pay rent") None (Some (lit "2025-08-04"));
                 DbRow 2 (lit "ann") (lit "call mom") None (Some (lit "2025-08-05"));
                 DbRow 3 (lit "ann") (lit "water plants") None (Some (lit "2025-07-28"));
                 DbRow 4 (lit "ann") (lit "file taxes") None (Some (lit "2025-07-27"));
                 DbRow 5 (lit "bob") (lit "buy milk") None (Some (lit "2025-07-29"))];
       last_id := 5 |}
    (Date 739460) (lit "ann") (lit "week")
  = Ok [(1%Z, lit "pay rent", None, Some (lit "2025-08-04"));
        (3%Z, lit "water plants", None, Some (lit "2025-07-28"))].
Proof. split; reflexivity. Qed.

(** C6: the loop raises nothing, in any mode and for any reference date, and
    no row it keeps has an absent or empty due date or one that
    [strptime] refuses, such as ["not-a-date"]. *)
Theorem due_loop_skips_unparsed (today week_later : date) (mode : str)
    (results : list note_row) :
  exists filtered,
    due_loop today week_later mode results [] = Ok filtered /\
    (forall row,
        snd row = None \/ snd row = Some [] \/
        (exists due e, snd row = Some due /\ strptime_ymd due = Raise e) ->
        ~ In row filtered) /\
    strptime_ymd (lit "not-a-date") = Raise ValueError.
Proof.
  rewrite due_loop_filter. eexists. split; [reflexivity|]. split; [|reflexivity].
  intros row Hbad Hin. cbn [app] in Hin.
  apply filter_In in Hin as [_ Hsel].
  apply row_selected_matches in Hsel as (due & d & Hdue & Hne & Hd & _).
  destruct row as [[[id_ note_] tags_] o]. cbn [snd] in *. subst o.
  destruct Hbad as [H | [H | (due' & e & H & He)]].
  - discriminate.
  - injection H as ->. contradiction.
  - injection H as ->. congruence.
Qed.

(** C8: the selected rows are a subsequence of the rows given, in their
    order; they are the rows that match, every one of them; and there are
    none when no row matches. *)
Theorem due_loop_subsequence (today week_later : date) (mode : str)
    (results : list note_row) :
  exists filtered,
    due_loop today week_later mode results [] = Ok filtered /\
    Subsequence filtered results /\
    (forall row,
        In row filtered <->
        In row results /\
        exists due d,
          snd row = Some due /\ due <> [] /\ strptime_ymd due = Ok d /\
          due_matches today week_later mode d) /\
    ((forall row due d,
         In row results -> snd row = Some due -> due <> [] ->
         strptime_ymd due = Ok d -> ~ due_matches today week_later mode d) ->
     filtered = []).
Proof.
  rewrite due_loop_filter. eexists. split; [reflexivity|]. cbn [app].
  split; [|split].
  - apply filter_Subsequence.
  - intros row. now rewrite filter_In, row_selected_matches.
  - intros Hnone.
    destruct (filter (row_selected today week_later mode) results) as [|row l] eqn:E;
      [reflexivity|].
    assert (Hin : In row (filter (row_selected today week_later mode) results))
      by (rewrite E; now left).
    apply filter_In in Hin as [Hin Hsel].
    apply row_selected_matches in Hsel as (due & d & Hdue & Hne & Hd & Hm).
    exfalso. exact (Hnone row due d Hin Hdue Hne Hd Hm).
Qed.

Lemma due_loop_skips_unparsed_witness :
  exists filtered,
    due_loop (Date 739464) (Date 739471) (lit "overdue")
             [(1%Z, lit "old", None, Some (lit "2025-07-01"));
              (2%Z, lit "bad", None, Some (lit "not-a-date"));
              (3%Z, lit "none", None, None)] [] = Ok filtered /\
    ~ In (2%Z, lit "bad", None, Some (lit "not-a-date")) filtered.
Proof.
  destruct (due_loop_skips_unparsed (Date 739464) (Date 739471) (lit "overdue")
              [(1%Z, lit "old", None, Some (lit "2025-07-01"));
               (2%Z, lit "bad", None, Some (lit "not-a-date"));
               (3%Z, lit "none", None, None)]) as (filtered & Hrun & Hbad & _).
  exists filtered. split; [exact Hrun|].
  apply Hbad. right; right. exists (lit "not-a-date"), ValueError. now split.
Defined.

Lemma due_loop_subsequence_witness :
  exists filtered,
    due_loop (Date 739464) (Date 739471) (lit "overdue")
             [(1%Z, lit "old", None, Some (lit "2025-07-01"));
              (2%Z, lit "bad", None, Some (lit "not-a-date"));
              (3%Z, lit "now", None, Some (lit "2025-08-01"));
              (4%Z, lit "older", None, Some (lit "2025-06-30"))] [] = Ok filtered /\
    Subsequence filtered
                [(1%Z, lit "old", None, Some (lit "2025-07-01"));
                 (2%Z, lit "bad", None, Some (lit "not-a-date"));
                 (3%Z, lit "now", None, Some (lit "2025-08-01"));
                 (4%Z, lit "older", None, Some (lit "2025-06-30"))] /\
    In (1%Z, lit "old", None, Some (lit "2025-07-01")) filtered /\
    In (4%Z, lit "older", None, Some (lit "2025-06-30")) filtered.
Proof.
  destruct (due_loop_subsequence (Date 739464) (Date 739471) (lit "overdue")
              [(1%Z, lit "old", None, Some (lit "2025-07-01"));
               (2%Z, lit "bad", None, Some (lit "not-a-date"));
               (3%Z, lit "now", None, Some (lit "2025-08-01"));
               (4%Z, lit "older", None, Some (lit "2025-06-30"))])
    as (filtered & Hrun & Hsub & Hin & _).
  exists filtered. split; [exact Hrun|]. split; [exact Hsub|]. split; apply Hin.
  - split; [now left|]. exists (lit "2025-07-01"), (Date 739433).
    repeat split; try discriminate. right; left. split; reflexivity.
  - split; [now right; right; right; left|]. exists (lit "2025-06-30"), (Date 739432).
    repeat split; try discriminate. right; left. split; reflexivity.
Defined.

(** The run of the witness: the two overdue rows, in their order. *)
Example due_loop_overdue_rows :
  due_loop (Date 739464) (Date 739471) (lit "overdue")
           [(1%Z, lit "old", None, Some (lit "2025-07-01"));
            (2%Z, lit "bad", None, Some (lit "not-a-date"));
            (3%Z, lit "now", None, Some (lit "2025-08-01"));
            (4%Z, lit "older", None, Some (lit "2025-06-30"))] []
  = Ok [(1%Z, lit "old", None, Some (lit "2025-07-01"));
        (4%Z, lit "older", None, Some (lit "2025-06-30"))].
Proof. reflexivity. Qed.

(** [strptime] reads the decimal digits of every script where the
    expression has [\d], the year and the second digit of a day from 10 to
    29, and ASCII digits only elsewhere: a row dated in Arabic-Indic digits
    is listed. *)
Example strptime_ymd_unicode_digits :
  strptime_ymd ([1634; 1632; 1634; 1637]%N ++ lit "-07-01") = Ok (Date 739433) /\
  strptime_ymd (lit "2025-07-1" ++ [1637]%N) = Ok (Date 739447) /\
  strptime_ymd (lit "2025-" ++ [65296; 65303]%N ++ lit "-01") = Raise ValueError /\
  strptime_ymd (lit "2025-07-" ++ [1633; 1637]%N) = Raise ValueError /\
  strptime_ymd (lit "2025-07- 5") = Ok (Date 739437) /\
  due_loop (Date 739464) (Date 739471) (lit "overdue")
           [(1%Z, lit "old", None, Some ([1634; 1632; 1634; 1637]%N ++ lit "-07-01"))] []
  = Ok [(1%Z, lit "old", None, Some ([1634; 1632; 1634; 1637]%N ++ lit "-07-01"))].
Proof. repeat split. Qed.

(** ** The store: [add_note_to_db] and [export_notes_to_json] *)

(** *** [split(",")] after [",".join] *)

Section SplitChar.

Variable c : char.

Lemma split_sep_from_char_word (w cur rest : str) :
  ~ In c w ->
  split_sep_from [c] cur 0 (w ++ rest) = split_sep_from [c] (cur ++ w) 0 rest.
Proof.
  revert cur. induction w as [|x w IH]; intros cur Hw.
  - now rewrite app_nil_r.
  - cbn [app split_sep_from startswith].
    destruct (char_eqb x c) eqn:Hx.
    + apply char_eqb_eq in Hx. subst x. exfalso. apply Hw. now left.
    + cbn [andb]. rewrite IH, <- app_assoc; [reflexivity|].
      intros Hin. apply Hw. now right.
Qed.

Lemma split_sep_from_char_sep (cur rest : str) :
  split_sep_from [c] cur 0 (c :: rest) = cur :: split_sep_from [c] [] 0 rest.
Proof.
  cbn [split_sep_from startswith]. now rewrite char_eqb_refl.
Qed.

Lemma split_sep_join_char (parts : list str) :
  Forall (fun p => ~ In c p) parts -> parts <> [] ->
  split_sep [c] (join [c] parts) = parts.
Proof.
  unfold split_sep.
  induction 1 as [|p parts Hp Hparts IH]; intros Hne; [contradiction|].
  destruct parts as [|p2 parts].
  - cbn [join]. rewrite <- (app_nil_r p) at 1.
    rewrite split_sep_from_char_word by exact Hp. reflexivity.
  - rewrite join_cons by discriminate.
    rewrite split_sep_from_char_word by exact Hp.
    cbn [app]. rewrite split_sep_from_char_sep. cbn [app]. f_equal.
    apply IH. discriminate.
Qed.

End SplitChar.

Lemma join_nil (sep : str) (parts : list str) :
  sep <> [] -> join sep parts = [] -> parts = [] \/ parts = [[]].
Proof.
  intros Hsep H. destruct parts as [|p [|p2 parts]]; [now left | right | exfalso].
  - simpl in H. now subst.
  - rewrite join_cons in H by discriminate.
    apply app_eq_nil in H as [_ H]. apply app_eq_nil in H as [H _]. contradiction.
Qed.

Lemma export_tags_tag_string (tags_ : list str) :
  Forall (fun t => ~ In (chr ",") t) tags_ -> tags_ <> [[]] ->
  export_tags (tag_string_of tags_) = tags_.
Proof.
  intros Hcomma Hne. destruct tags_ as [|t tags_]; [reflexivity|].
  cbn [tag_string_of export_tags].
  destruct (join COMMA (t :: tags_)) as [|c s] eqn:E.
  - apply join_nil in E as [E | E]; [discriminate | contradiction | discriminate].
  - rewrite <- E. apply (split_sep_join_char (chr ",")); [exact Hcomma | discriminate].
Qed.





(** *** Duplicates *)

(** Without tags the joined string is NULL, [tags = NULL] is never true, and
    the query finds no row. *)
Lemma duplicate_where_untagged (user note_ : str) (due : option str) (r : db_row) :
  where_holds (duplicate_where user note_ None due r) = false.
Proof.
  unfold duplicate_where.
  destruct (sql_eq (Some (row_user r)) (Some user)) as [[|]|],
           (sql_eq (Some (row_note r)) (Some note_)) as [[|]|],
           (sql_is (row_due_date r) due) as [[|]|],
           (row_tags r); reflexivity.
Qed.

Lemma add_note_to_db_untagged (user note_ : str) (due : option str) (db : database) :
  add_note_to_db user note_ [] due db = (true, insert_note user note_ None due db).
Proof.
  unfold add_note_to_db. cbn [tag_string_of].
  destruct (find _ (notes db)) as [r|] eqn:E; [|reflexivity].
  apply find_some in E as [_ E]. now rewrite duplicate_where_untagged in E.
Qed.

Lemma where_holds_and (a b : option bool) :
  where_holds (sql_and a b) = where_holds a && where_holds b.
Proof. destruct a as [[|]|], b as [[|]|]; reflexivity. Qed.

Lemma where_holds_eq (a b : option str) :
  where_holds (sql_eq a b) = true <-> exists x, a = Some x /\ b = Some x.
Proof.
  destruct a as [x|], b as [y|]; cbn; try (split; [discriminate | now intros (z & [=] & [=])]).
  destruct (str_eqb x y) eqn:E.
  - apply str_eqb_eq in E. subst y. split; [now exists x | reflexivity].
  - split; [discriminate|]. intros (z & [= ->] & [= ->]).
    assert (str_eqb z z = true) by now apply str_eqb_eq. congruence.
Qed.

Lemma where_holds_is (a b : option str) :
  where_holds (sql_is a b) = true <-> a = b.
Proof.
  destruct a as [x|], b as [y|]; cbn; try (split; [discriminate | discriminate]);
    [|split; reflexivity].
  destruct (str_eqb x y) eqn:E.
  - apply str_eqb_eq in E. subst y. split; reflexivity.
  - split; [discriminate|]. intros [= ->].
    assert (str_eqb y y = true) by now apply str_eqb_eq. congruence.
Qed.

(** With tags the query finds a row exactly when the row is a duplicate. *)
Lemma duplicate_where_tagged (user note_ t : str) (due : option str) (r : db_row) :
  where_holds (duplicate_where user note_ (Some t) due r) = true <->
  row_user r = user /\ row_note r = note_ /\ row_tags r = Some t /\ row_due_date r = due.
Proof.
  unfold duplicate_where.
  rewrite !where_holds_and, !andb_true_iff, !where_holds_eq, where_holds_is. split.
  - intros [[[(u & [= <-] & [= <-]) (n & [= <-] & [= <-])] (x & -> & [= <-])] ->].
    now repeat split.
  - intros (<- & <- & -> & <-). repeat split; eexists; split; reflexivity.
Qed.

(** With at least one tag, the body reaches [return False] and leaves the
    table as it is when the table holds a duplicate, and appends the note
    and reaches [return True] when it holds none. *)
Lemma add_note_to_db_tagged (user note_ t : str) (tags_ : list str)
    (due : option str) (db : database) :
  (is_duplicate user note_ (t :: tags_) due db /\
   add_note_to_db user note_ (t :: tags_) due db = (false, db)) \/
  (~ is_duplicate user note_ (t :: tags_) due db /\
   add_note_to_db user note_ (t :: tags_) due db
   = (true, insert_note user note_ (Some (join COMMA (t :: tags_))) due db)).
Proof.
  unfold add_note_to_db, is_duplicate. cbn [tag_string_of].
  destruct (find _ (notes db)) as [r|] eqn:E; [left | right]; split; try reflexivity.
  - apply find_some in E as [Hin E].
    apply duplicate_where_tagged in E. now exists r.
  - intros (r & Hin & H).
    apply (find_none _ _ E) in Hin.
    apply duplicate_where_tagged in H. congruence.
Qed.

(** C1, where the code departs from it: [add_note_to_db] hands neither
    [True] nor [False] to its caller, for it raises when it leaves its
    [with] block; and a note without tags is saved a second time although
    the table holds its duplicate. *)
Theorem add_note_to_db_untagged_twice :
  let first := add_note_to_db_call (lit "ann") (lit "buy milk") [] None empty_db in
  let second := add_note_to_db_call (lit "ann") (lit "buy milk") [] None (snd first) in
  first = (Raises ProgrammingError,
           {| notes := [DbRow 1 (lit "ann") (lit "buy milk") None None];
              last_id := 1 |}) /\
  is_duplicate (lit "ann") (lit "buy milk") [] None (snd first) /\
  second = (Raises ProgrammingError,
            {| notes := [DbRow 1 (lit "ann") (lit "buy milk") None None;
                         DbRow 2 (lit "ann") (lit "buy milk") None None];
               last_id := 2 |}).
Proof.
  cbv zeta. split; [reflexivity|]. split; [|reflexivity].
  exists (DbRow 1 (lit "ann") (lit "buy milk") None None).
  repeat split. now left.
Qed.

(** ** [import_txt_to_db] against [parse_note] *)

Lemma occurs_app (sub a s b : str) : occurs sub s -> occurs sub (a ++ s ++ b).
Proof.
  intros (i & before & after & -> & _).
  exists (length (a ++ before)), (a ++ before), (after ++ b).
  split; [now rewrite <- !app_assoc | reflexivity].
Qed.

Lemma occurs_tail (sub : str) (c : char) (s : str) : occurs sub s -> occurs sub (c :: s).
Proof. intros H. apply (occurs_app sub [c] s []) in H. now rewrite app_nil_r in H. Qed.

Lemma tokens_of_occurs (s : str) (toks : list str) (w : str) :
  tokens_of s toks -> In w toks -> occurs w s.
Proof.
  induction 1 as [ws Hws | ws w0 rest toks Hws Hw Hrest _ IH]; intros Hin; [contradiction|].
  destruct Hin as [-> | Hin].
  - exists (length ws), ws, rest. now split.
  - apply IH in Hin. apply (occurs_app w (ws ++ w0) rest []) in Hin.
    now rewrite app_nil_r, <- app_assoc in Hin.
Qed.

Lemma occurs_trans (a b c : str) : occurs a b -> occurs b c -> occurs a c.
Proof.
  intros Hab (i & before & after & -> & _). now apply occurs_app.
Qed.

Lemma startswith_occurs (s prefix : str) : startswith s prefix = true -> occurs prefix s.
Proof. intros H. exists 0. now apply occurs_at_O. Qed.

(** No token of a text without the marker starts with the marker. *)
Lemma tokens_not_due (s : str) (w : str) :
  ~ occurs DUE s -> In w (split_ws s) -> startswith w DUE = false.
Proof.
  intros Hs Hw. destruct (startswith w DUE) eqn:E; [|reflexivity].
  exfalso. apply Hs. apply occurs_trans with w.
  - now apply startswith_occurs.
  - now apply tokens_of_occurs with (split_ws s); [apply split_ws_tokens|].
Qed.

Lemma filter_import_body (s : str) :
  ~ occurs DUE s ->
  filter (fun w => negb (is_tag w) && negb (startswith w DUE)) (split_ws s)
  = filter (fun w => negb (is_tag w)) (split_ws s).
Proof.
  intros Hs. apply filter_ext_in. intros w Hw.
  rewrite (tokens_not_due s w Hs Hw). now rewrite andb_true_r.
Qed.

Lemma strip_idem (s : str) : strip (strip s) = strip s.
Proof. destruct (strip_trimmed s) as [_ [H1 H2]]. now apply strip_fixed. Qed.

(** *** A last token behind whitespace *)

Lemma ends_blank_app (a b : str) : b <> [] -> ends_blank (a ++ b) -> ends_blank b.
Proof.
  unfold ends_blank. rewrite rev_app_distr. intros Hb H.
  destruct (rev b) as [|c u] eqn:E; [exact I | exact H].
Qed.

Lemma word_not_ends_blank (w : str) : word w -> ~ ends_blank w.
Proof.
  intros Hw H. destruct (word_first w Hw) as [_ Hlast]. destruct Hw as [Hne _].
  unfold ends_blank in H. destruct (rev w) as [|c u] eqn:E.
  - apply (f_equal (@rev _)) in E. rewrite rev_involutive in E. contradiction.
  - simpl in *. congruence.
Qed.

Lemma tokens_of_app_word (s : str) (toks : list str) (w : str) :
  tokens_of s toks -> ends_blank s -> word w -> tokens_of (s ++ w) (toks ++ [w]).
Proof.
  intros H Hend Hw. induction H as [ws Hws | ws w0 rest toks Hws Hw0 Hrest Htoks IH].
  - assert (T : tokens_of (ws ++ w ++ []) [w])
      by (apply tokens_word; try easy; repeat constructor).
    now rewrite app_nil_r in T.
  - destruct rest as [|c rest].
    + exfalso. rewrite app_nil_r in Hend. apply (word_not_ends_blank w0 Hw0).
      apply ends_blank_app with ws; [apply Hw0 | exact Hend].
    + rewrite <- !app_assoc. cbn [app].
      apply (tokens_word ws w0 ((c :: rest) ++ w)); try assumption.
      apply IH. rewrite app_assoc in Hend.
      apply ends_blank_app with (ws ++ w0); [discriminate | exact Hend].
Qed.

Lemma split_ws_app_word (s w : str) :
  ends_blank s -> word w -> split_ws (s ++ w) = split_ws s ++ [w].
Proof.
  intros Hend Hw. apply tokens_of_split_ws.
  apply tokens_of_app_word; [apply split_ws_tokens | assumption | assumption].
Qed.

(** *** [split("[due:")] *)

Lemma split_sep_from_none (sep cur s : str) :
  ~ occurs sep s -> split_sep_from sep cur 0 s = [cur ++ s].
Proof.
  revert cur. induction s as [|c s IH]; intros cur Hs.
  - now rewrite app_nil_r.
  - cbn [split_sep_from].
    destruct (startswith (c :: s) sep) eqn:E.
    + exfalso. apply Hs. now apply startswith_occurs.
    + rewrite IH, <- app_assoc; [reflexivity|].
      intros H. apply Hs. now apply occurs_tail.
Qed.

(** The marker does not overlap itself: in front of an occurrence, no
    occurrence starts unless it lies before it entirely. *)
Lemma startswith_before_due (p rest : str) :
  p <> [] -> ~ occurs DUE p -> startswith (p ++ DUE ++ rest) DUE = false.
Proof.
  intros Hne Hp. destruct (startswith (p ++ DUE ++ rest) DUE) eqn:E; [|reflexivity].
  exfalso.
  destruct p as [|x1 [|x2 [|x3 [|x4 [|x5 p]]]]]; [contradiction| | | | |];
    cbn in E; repeat (apply andb_true_iff in E as [? E]); try discriminate.
  apply Hp. exists 0. apply occurs_at_O. cbn.
  repeat (apply andb_true_iff; split); assumption.
Qed.

Lemma split_sep_from_due (p cur rest : str) :
  ~ occurs DUE p ->
  split_sep_from DUE cur 0 (p ++ DUE ++ rest)
  = (cur ++ p) :: split_sep_from DUE [] 0 rest.
Proof.
  revert cur. induction p as [|x p IH]; intros cur Hp.
  - rewrite app_nil_r. reflexivity.
  - cbn [app split_sep_from].
    change (x :: p ++ DUE ++ rest) with ((x :: p) ++ DUE ++ rest).
    rewrite startswith_before_due by (discriminate || exact Hp).
    rewrite IH, <- app_assoc; [reflexivity|].
    intros H. apply Hp. now apply occurs_tail.
Qed.

Lemma no_bracket_no_due (s : str) : Forall (fun c => c <> chr "[") s -> ~ occurs DUE s.
Proof.
  intros Hs [j Hj]. apply occurs_at_nth, nth_error_In in Hj.
  rewrite Forall_forall in Hs. now apply (Hs _ Hj).
Qed.

(** *** The two extractions on a line *)

Lemma import_txt_line_plain (line : str) :
  strip line <> [] -> ~ occurs DUE (strip line) ->
  import_txt_line line
  = Some (note (parse_of (strip line) None), tags (parse_of (strip line) None), None).
Proof.
  intros Hne Hs. unfold import_txt_line, parse_of. cbn [note tags].
  destruct (strip line) as [|c s] eqn:E; [contradiction|]. cbn [truthy_str negb].
  rewrite <- E in *. rewrite strip_idem, filter_import_body by exact Hs.
  destruct (contains DUE (strip line)) eqn:Hc; [|reflexivity].
  now apply contains_occurs in Hc.
Qed.

Lemma import_txt_line_due_token (line p d : str) :
  strip line = p ++ DUE ++ d ++ RBRACKET ->
  ~ occurs DUE p -> ends_blank p ->
  Forall (fun c => is_space c = false /\ c <> chr "[" /\ c <> chr "]") d ->
  import_txt_line line
  = Some (note (parse_of p (Some d)), tags (parse_of p (Some d)), Some d) /\
  parse_note (strip line) = Ok (parse_of p (Some d)).
Proof.
  intros Hs Hp Hend Hd.
  assert (Hsp : Forall (fun c => is_space c = false) d)
    by (eapply Forall_impl; [|exact Hd]; now intros c [H _]).
  assert (Hlb : Forall (fun c => c <> chr "[") d)
    by (eapply Forall_impl; [|exact Hd]; now intros c (_ & H & _)).
  assert (Hrb : ~ In (chr "]") d).
  { intros Hin. rewrite Forall_forall in Hd. now destruct (Hd _ Hin) as (_ & _ & H). }
  assert (Hw : word (DUE ++ d ++ RBRACKET)).
  { split; [discriminate|]. repeat (apply Forall_app; split); try assumption;
      repeat constructor. }
  assert (Hafter : Forall (fun c => c <> chr "[") (d ++ RBRACKET)).
  { apply Forall_app. split; [exact Hlb | repeat constructor; discriminate]. }
  split.
  - unfold import_txt_line. rewrite Hs.
    assert (truthy_str (p ++ DUE ++ d ++ RBRACKET) = true) as ->
      by (destruct p; reflexivity).
    cbn [negb]. rewrite split_ws_app_word by assumption.
    rewrite !filter_app. cbn [filter].
    assert (is_tag (DUE ++ d ++ RBRACKET) = false) as -> by reflexivity.
    assert (startswith (DUE ++ d ++ RBRACKET) DUE = true) as ->
      by (apply startswith_app; now exists (d ++ RBRACKET)).
    cbn [negb andb]. rewrite !app_nil_r, filter_import_body by exact Hp.
    assert (contains DUE (p ++ DUE ++ d ++ RBRACKET) = true) as ->
      by (apply contains_occurs; now exists (length p), p, (d ++ RBRACKET)).
    unfold split_sep. rewrite split_sep_from_due by exact Hp.
    rewrite split_sep_from_none by now apply no_bracket_no_due.
    cbn [index nth_error bind app].
    change RBRACKET with [chr "]"]. rewrite split_sep_from_char_word by exact Hrb.
    rewrite split_sep_from_char_sep. cbn [index nth_error app].
    unfold parse_of. cbn [note tags]. now rewrite split_ws_strip.
  - rewrite Hs.
    rewrite (parse_note_marker _ p (d ++ RBRACKET))
      by now apply last_occurrence_no_bracket.
    do 3 f_equal. change RBRACKET with [chr "]"].
    change (d ++ [chr "]"]) with (d ++ repeat (chr "]") 1). rewrite rstrip_chars_repeat.
    rewrite (without_trailing_rstrip (chr "]") d d).
    + apply strip_fixed.
      * destruct d as [|c d]; [exact I | now inversion Hsp].
      * destruct (rev d) as [|c u] eqn:E; [exact I|]. simpl.
        rewrite Forall_forall in Hsp. apply Hsp, in_rev. rewrite E. now left.
    + split; [exists 0; now rewrite app_nil_r|].
      destruct (rev d) as [|c u] eqn:E; [exact I|].
      intros ->. apply Hrb, in_rev. unfold char in *. rewrite E. now left.
Qed.

(** C2, as amended: the fields [import_txt_to_db] takes from a line are
    those [parse_note] returns for the stripped line when the stripped line
    has no marker, or one marker only, opening its last token [[due:D]] with
    no whitespace and no bracket in [D]. *)
Theorem import_txt_line_parse_note (line : str) :
  strip line <> [] ->
  ~ occurs DUE (strip line) \/ ends_with_due_token (strip line) ->
  exists n,
    parse_note (strip line) = Ok n /\
    import_txt_line line = Some (note n, tags n, due_date n).
Proof.
  intros Hne [Hplain | (p & d & Hs & Hp & Hend & Hd)].
  - exists (parse_of (strip line) None). split.
    + now apply parse_note_plain.
    + now apply import_txt_line_plain.
  - destruct (import_txt_line_due_token line p d Hs Hp Hend Hd) as [Himp Hparse].
    exists (parse_of p (Some d)). split; [exact Hparse | exact Himp].
Qed.

Lemma import_txt_line_parse_note_witness :
  exists n,
    parse_note (strip (lit "  Buy groceries #errand [due:2025-07-31]" ++ [chr "010"])) = Ok n /\
    import_txt_line (lit "  Buy groceries #errand [due:2025-07-31]" ++ [chr "010"])
    = Some (note n, tags n, due_date n).
Proof.
  apply import_txt_line_parse_note.
  - discriminate.
  - right. exists (lit "Buy groceries #errand "), (lit "2025-07-31").
    split; [reflexivity|]. split; [|split].
    + now apply not_occurs_contains.
    + reflexivity.
    + repeat constructor; discriminate.
Defined.

(** C2, as stated, fails: on ["Call mom [due:2025-07-31] #family"] the import
    reads the tag behind the marker and ends the due date at the bracket,
    and [parse_note] takes all that follows the marker as the due date. *)
Lemma import_txt_line_tag_after_due :
  import_txt_line (lit "Call mom [due:2025-07-31] #family")
  = Some (lit "Call mom", [lit "#family"], Some (lit "2025-07-31")) /\
  parse_note (lit "Call mom [due:2025-07-31] #family")
  = Ok {| note := lit "Call mom"; tags := [];
          due_date := Some (lit "2025-07-31] #family") |} /\
  (lit "Call mom", [lit "#family"], Some (lit "2025-07-31"))
  <> (lit "Call mom", @nil str, Some (lit "2025-07-31] #family")).
Proof. split; [|split]; [reflexivity | reflexivity | discriminate]. Qed.

(** ** Runs on the inputs of the test suite *)

Example parse_note_test :
  parse_note (lit "Buy milk #grocery #urgent [due:2025-07-25]")
  = Ok {| note := lit "Buy milk"; tags := [lit "#grocery"; lit "#urgent"];
          due_date := Some (lit "2025-07-25") |}.
Proof. reflexivity. Qed.

Example build_note_test :
  build_note_from_json {| note := lit "Finish project"; tags := [lit "urgent"; lit "work"];
                          due_date := Some (lit "2025-09-01") |}
  = lit "Finish project urgent,work [due:2025-09-01]".
Proof. reflexivity. Qed.

Example parse_note_no_tags_or_due :
  parse_note (lit "Read a book")
  = Ok {| note := lit "Read a book"; tags := []; due_date := None |}.
Proof. reflexivity. Qed.

(** Without tags the two separating spaces stand side by side. *)
Example build_note_no_tags :
  build_note_from_json {| note := lit "Just a note"; tags := [];
                          due_date := Some (lit "2025-09-01") |}
  = lit "Just a note  [due:2025-09-01]".
Proof. reflexivity. Qed.

Example build_note_no_due :
  build_note_from_json {| note := lit "Read book"; tags := [lit "reading"];
                          due_date := None |}
  = lit "Read book reading".
Proof. reflexivity. Qed.

Example add_duplicate_note :
  let first := add_note_to_db_call (lit "testuser") (lit "Duplicate note here")
                                   [lit "duplicate"] (Some (lit "2025-11-01")) empty_db in
  let second := add_note_to_db_call (lit "testuser") (lit "Duplicate note here")
                                    [lit "duplicate"] (Some (lit "2025-11-01")) (snd first) in
  length (notes (snd first)) = 1 /\ snd second = snd first /\
  fst first = Raises ProgrammingError /\ fst second = Raises ProgrammingError.
Proof. repeat split. Qed.

Example import_txt_first_line :
  import_txt_line (lit "Buy groceries #errand [due:2025-07-31]" ++ [chr "010"])
  = Some (lit "Buy groceries", [lit "#errand"], Some (lit "2025-07-31")).
Proof. reflexivity. Qed.

Example view_due_notes_overdue :
  view_due_notes
    {| notes := [DbRow 1 (lit "testuser") (lit "Note 3") (Some (lit "#test"))
                       (Some (lit "2025-07-01"))];
       last_id := 1 |}
    (Date 739464) (lit "testuser") (lit "overdue")
  = Ok [(1%Z, lit "Note 3", Some (lit "#test"), Some (lit "2025-07-01"))] /\
  view_due_notes
    {| notes := [DbRow 1 (lit "testuser") (lit "Note 3") (Some (lit "#test"))
                       (Some (lit "2025-07-01"))];
       last_id := 1 |}
    (Date 739464) (lit "testuser") (lit "today")
  = Ok [].
Proof. split; reflexivity. Qed.

(** * Further properties of the code *)

(** ** Connections and [add_note_to_db] *)

(** A function that changes the table, commits and leaves its connection
    open returns, with the table changed: [delete_note_by_id] and
    [edit_note_by_id] do so. *)
Lemma with_get_connection_change (change : database -> database) (db : database) :
  with_get_connection (_ <- execute_change change ;; commit)%conn db
  = (Returns tt, change db).
Proof. reflexivity. Qed.

Lemma add_note_to_db_cases (user note_ : str) (tags_ : list str) (due : option str)
    (db : database) :
  add_note_to_db user note_ tags_ due db = (false, db) \/
  add_note_to_db user note_ tags_ due db
  = (true, insert_note user note_ (tag_string_of tags_) due db).
Proof. unfold add_note_to_db. destruct (find _ _); [now left | now right]. Qed.

Lemma add_note_to_db_call_eq (user note_ : str) (tags_ : list str) (due : option str)
    (db : database) :
  add_note_to_db_call user note_ tags_ due db
  = if negb (bindable [Some user; Some note_; tag_string_of tags_; due])
    then (Raises UnicodeEncodeError, db)
    else if fst (add_note_to_db user note_ tags_ due db)
         then if negb (sqlite_integer (next_id db))
              then (Raises OperationalError, db)
              else (Raises ProgrammingError,
                    snd (add_note_to_db user note_ tags_ due db))
         else (Raises ProgrammingError, db).
Proof.
  unfold add_note_to_db_call, add_note_to_db, with_get_connection, conn_bind,
    execute_select, execute_insert.
  cbn [closed in_transaction].
  destruct (bindable _) eqn:Hb; cbn [negb]; [|reflexivity].
  destruct (find _ (notes db)); cbn [fst snd closed in_transaction]; [reflexivity|].
  try rewrite Hb. cbn [negb].
  destruct (sqlite_integer (next_id db)); reflexivity.
Qed.

Lemma add_note_to_db_call_cases (user note_ : str) (tags_ : list str) (due : option str)
    (db : database) :
  (exists e, add_note_to_db_call user note_ tags_ due db = (Raises e, db)) \/
  sqlite_integer (next_id db) = true /\
  add_note_to_db_call user note_ tags_ due db
  = (Raises ProgrammingError, insert_note user note_ (tag_string_of tags_) due db).
Proof.
  rewrite add_note_to_db_call_eq.
  destruct (bindable _); cbn [negb]; [|left; now eexists].
  destruct (add_note_to_db_cases user note_ tags_ due db) as [-> | ->]; cbn [fst snd];
    [left; now eexists|].
  destruct (sqlite_integer (next_id db)); cbn [negb]; [now right | left; now eexists].
Qed.

Lemma add_note_to_db_call_raises (user note_ : str) (tags_ : list str) (due : option str)
    (db : database) :
  exists e db', add_note_to_db_call user note_ tags_ due db = (Raises e, db').
Proof.
  destruct (add_note_to_db_call_cases user note_ tags_ due db) as [[e ->] | [_ ->]];
    now eexists _, _.
Qed.

(** X1: for strings SQLite can bind and a table with an id left, with at
    least one tag [add_note_to_db] leaves the table as it is when the table
    holds a duplicate, and appends the note when it holds none; in either
    case what the caller gets is the [sqlite3.ProgrammingError] of leaving
    the [with] block. *)
Theorem add_note_to_db_with_tags (user note_ t : str) (tags_ : list str)
    (due : option str) (db : database) :
  bindable [Some user; Some note_; Some (join COMMA (t :: tags_)); due] = true ->
  sqlite_integer (next_id db) = true ->
  (is_duplicate user note_ (t :: tags_) due db /\
   add_note_to_db_call user note_ (t :: tags_) due db = (Raises ProgrammingError, db)) \/
  (~ is_duplicate user note_ (t :: tags_) due db /\
   add_note_to_db_call user note_ (t :: tags_) due db
   = (Raises ProgrammingError,
      insert_note user note_ (Some (join COMMA (t :: tags_))) due db)).
Proof.
  intros Hb Hid. rewrite add_note_to_db_call_eq. cbn [tag_string_of].
  rewrite Hb, Hid. cbn [negb].
  destruct (add_note_to_db_tagged user note_ t tags_ due db) as [[Hdup ->] | [Hdup ->]];
    cbn [fst snd]; [now left | now right].
Qed.

Lemma add_note_to_db_with_tags_witness :
  ~ is_duplicate (lit "ann") (lit "buy milk") [lit "#todo"; lit "#home"] None empty_db /\
  add_note_to_db_call (lit "ann") (lit "buy milk") [lit "#todo"; lit "#home"] None empty_db
  = (Raises ProgrammingError,
     {| notes := [DbRow 1 (lit "ann") (lit "buy milk") (Some (lit "#todo,#home")) None];
        last_id := 1 |}).
Proof.
  destruct (add_note_to_db_with_tags (lit "ann") (lit "buy milk") (lit "#todo")
              [lit "#home"] None empty_db eq_refl eq_refl) as [[(r & [] & _) _] | H].
  exact H.
Defined.

(** X2: [add_note_to_db] never hands [True] or [False] to its caller.  When
    its strings can be bound and the table has an id left, it has closed the
    connection on either path when it leaves the [with] block, the commit of
    the block raises [sqlite3.ProgrammingError], and the table is as the body
    left it: as it was when a duplicate was found, and with the new row,
    committed before the close, when none was.  It raises
    [UnicodeEncodeError] exactly when a string cannot be bound, and
    [sqlite3.OperationalError] exactly when the strings can be bound, no
    duplicate is found and no id is left; the table is then as it was. *)
Theorem add_note_to_db_raises (user note_ : str) (tags_ : list str) (due : option str)
    (db : database) :
  let call := add_note_to_db_call user note_ tags_ due db in
  let params := [Some user; Some note_; tag_string_of tags_; due] in
  (exists e, fst call = Raises e) /\
  (bindable params = true -> sqlite_integer (next_id db) = true ->
   call = (Raises ProgrammingError, snd (add_note_to_db user note_ tags_ due db))) /\
  (fst call = Raises UnicodeEncodeError <-> bindable params = false) /\
  (fst call = Raises OperationalError <->
   bindable params = true /\ fst (add_note_to_db user note_ tags_ due db) = true /\
   sqlite_integer (next_id db) = false) /\
  (fst call <> Raises ProgrammingError -> snd call = db) /\
  (snd call = db \/
   snd call = insert_note user note_ (tag_string_of tags_) due db).
Proof.
  cbv zeta. rewrite add_note_to_db_call_eq.
  destruct (bindable _); cbn [negb];
    [|repeat split; try discriminate; try (now eexists); try (now intros []); now left].
  destruct (add_note_to_db_cases user note_ tags_ due db) as [-> | ->]; cbn [fst snd].
  - repeat split; try discriminate; try (now eexists); try (now intros (_ & [=] & _));
      try (intros H; now contradiction H); now left.
  - destruct (sqlite_integer (next_id db)); cbn [negb fst snd].
    + repeat split; try discriminate; try (now eexists);
        try (now intros (_ & _ & [=])); try (intros H; now contradiction H); now right.
    + repeat split; try discriminate; try (now eexists); now left.
Qed.

(** ** Tags: typed, stored, exported *)

Section SplitCharMore.

Variable c : char.

Lemma split_sep_from_char_nonempty (cur s : str) : split_sep_from [c] cur 0 s <> [].
Proof.
  revert cur. induction s as [|x s IH]; intros cur; cbn [split_sep_from startswith].
  - discriminate.
  - destruct (char_eqb x c); cbn [andb]; [discriminate | apply IH].
Qed.

(** Joining the pieces again gives the string back. *)
Lemma join_split_sep_from_char (cur s : str) :
  join [c] (split_sep_from [c] cur 0 s) = cur ++ s.
Proof.
  revert cur. induction s as [|x s IH]; intros cur; cbn [split_sep_from startswith].
  - cbn [join]. now rewrite app_nil_r.
  - destruct (char_eqb x c) eqn:Hx; cbn [andb pred length].
    + apply char_eqb_eq in Hx. subst x.
      rewrite join_cons by apply split_sep_from_char_nonempty.
      now rewrite IH.
    + rewrite IH, <- app_assoc. reflexivity.
Qed.

(** No piece holds the separator. *)
Lemma split_sep_from_char_pieces (cur s : str) :
  ~ In c cur -> Forall (fun p => ~ In c p) (split_sep_from [c] cur 0 s).
Proof.
  revert cur. induction s as [|x s IH]; intros cur Hcur; cbn [split_sep_from startswith].
  - now constructor.
  - destruct (char_eqb x c) eqn:Hx; cbn [andb pred length].
    + constructor; [exact Hcur | apply IH; intros []].
    + apply IH. intros Hin. apply in_app_or in Hin as [Hin | [-> | []]]; [auto|].
      now rewrite char_eqb_refl in Hx.
Qed.

Lemma split_sep_char_absent (s : str) : ~ In c s -> split_sep [c] s = [s].
Proof.
  intros Hs. unfold split_sep. rewrite <- (app_nil_r s) at 1.
  now rewrite split_sep_from_char_word.
Qed.

End SplitCharMore.

Lemma In_lstrip (x : char) (s : str) : In x (lstrip s) -> In x s.
Proof.
  induction s as [|c s IH]; simpl; [auto|].
  destruct (is_space c); [right; auto | auto].
Qed.

Lemma In_strip (x : char) (s : str) : In x (strip s) -> In x s.
Proof.
  unfold strip, rstrip. intros H. apply in_rev in H. apply In_lstrip in H.
  apply in_rev in H. now apply In_lstrip.
Qed.

Lemma tag_string_of_split (x : char) (s : str) :
  tag_string_of (split_sep COMMA (x :: s)) = Some (x :: s).
Proof.
  unfold split_sep.
  pose proof (join_split_sep_from_char (chr ",") [] (x :: s)) as Hjoin.
  pose proof (split_sep_from_char_nonempty (chr ",") [] (x :: s)) as Hne.
  change COMMA with [chr ","] in *.
  destruct (split_sep_from [chr ","] [] 0 (x :: s)) as [|p l]; [contradiction|].
  cbn [tag_string_of]. change COMMA with [chr ","]. now rewrite Hjoin.
Qed.

(** X3: what [export_notes_to_json] reads from a stored tags string is
    stored by [add_note_to_db] as the same string; only the empty string comes
    back as NULL. *)
Theorem tag_string_of_export_tags (stored : option str) :
  tag_string_of (export_tags stored)
  = match stored with
    | Some (_ :: _) => stored
    | _ => None
    end.
Proof.
  destruct stored as [[|x s]|]; try reflexivity. apply tag_string_of_split.
Qed.

Lemma tag_list_of_In (your_tags t : str) :
  In t (tag_list_of your_tags) ->
  exists name, t = chr "#" :: name /\ name <> [] /\ ~ In (chr ",") name /\ strip name = name.
Proof.
  unfold tag_list_of. intros H. apply in_map_iff in H as (piece & <- & H).
  apply filter_In in H as [Hin Hne].
  exists (strip piece). split; [reflexivity|]. split; [|split].
  - now destruct (strip piece).
  - intros Hc. apply In_strip in Hc.
    pose proof (split_sep_from_char_pieces (chr ",") [] your_tags (fun f => f)) as Hp.
    rewrite Forall_forall in Hp. exact (Hp _ Hin Hc).
  - destruct (strip_trimmed piece) as [_ [H1 H2]]. now apply strip_fixed.
Qed.

(** X4: every tag built from the text typed at the tags prompt is [#]
    followed by a name that is not empty, holds no comma and has no whitespace
    at its ends; and the list, stored and exported, comes back as it was. *)
Theorem tag_list_of_round_trip (your_tags : str) :
  Forall (fun t => exists name,
              t = chr "#" :: name /\ name <> [] /\ ~ In (chr ",") name /\
              strip name = name)
         (tag_list_of your_tags) /\
  export_tags (tag_string_of (tag_list_of your_tags)) = tag_list_of your_tags.
Proof.
  assert (H : Forall (fun t => exists name,
                          t = chr "#" :: name /\ name <> [] /\ ~ In (chr ",") name /\
                          strip name = name)
                     (tag_list_of your_tags)).
  { apply Forall_forall. intros t. apply tag_list_of_In. }
  split; [exact H|].
  apply export_tags_tag_string.
  - eapply Forall_impl; [|exact H]. intros t (name & -> & _ & Hc & _) [Hin | Hin].
    + discriminate.
    + contradiction.
  - intros E. rewrite E in H. inversion H as [|? ? (name & Heq & _) _]. discriminate.
Qed.

(** ** Ids: [add_note_to_db], [delete_note_by_id], [db_note_exists] *)

Lemma str_eqb_refl (s : str) : str_eqb s s = true.
Proof. now apply str_eqb_eq. Qed.

Lemma row_matches_iff (user : str) (note_id : Z) (r : db_row) :
  row_matches user note_id r = true <-> row_id r = note_id /\ row_user r = user.
Proof.
  unfold row_matches. now rewrite andb_true_iff, Z.eqb_eq, str_eqb_eq.
Qed.

Lemma bind_int_ok (n : Z) : sqlite_integer n = true -> bind_int n = Ok n.
Proof. intros H. unfold bind_int. now rewrite H. Qed.

Lemma bind_int_overflow (n : Z) : sqlite_integer n = false -> bind_int n = Raise OverflowError.
Proof. intros H. unfold bind_int. now rewrite H. Qed.

Lemma db_note_exists_ok (user : str) (note_id : Z) (db : database) :
  sqlite_integer note_id = true ->
  db_note_exists user note_id db = Ok (existsb (row_matches user note_id) (notes db)).
Proof.
  intros H. unfold db_note_exists, select_row. rewrite (bind_int_ok _ H). cbn [bind].
  f_equal. induction (notes db) as [|r l IH]; [reflexivity|].
  simpl. now destruct (row_matches user note_id r).
Qed.

Lemma db_note_exists_overflow (user : str) (note_id : Z) (db : database) :
  sqlite_integer note_id = false -> db_note_exists user note_id db = Raise OverflowError.
Proof. intros H. unfold db_note_exists. now rewrite (bind_int_overflow _ H). Qed.

Lemma delete_note_by_id_ok (user : str) (note_id : Z) (db : database) :
  sqlite_integer note_id = true ->
  delete_note_by_id user note_id db = Ok (delete_rows user note_id db).
Proof. intros H. unfold delete_note_by_id. now rewrite (bind_int_ok _ H). Qed.

Lemma existsb_filter {A} (p q : A -> bool) (l : list A) :
  existsb p (filter q l) = existsb (fun x => p x && q x) l.
Proof.
  induction l as [|x l IH]; [reflexivity|]. simpl.
  destruct (q x); simpl; rewrite IH; [now rewrite andb_true_r | now rewrite andb_false_r].
Qed.

Lemma existsb_ext_in {A} (p q : A -> bool) (l : list A) :
  (forall x, In x l -> p x = q x) -> existsb p l = existsb q l.
Proof.
  induction l as [|x l IH]; intros H; [reflexivity|]. simpl.
  rewrite (H x) by now left. rewrite IH; [reflexivity|]. intros y Hy. apply H. now right.
Qed.

Lemma filter_all {A} (p : A -> bool) (l : list A) :
  (forall x, In x l -> p x = true) -> filter p l = l.
Proof.
  induction l as [|x l IH]; intros H; [reflexivity|]. simpl.
  rewrite (H x) by now left. f_equal. apply IH. intros y Hy. apply H. now right.
Qed.

(** X5: [delete_note_by_id] removes the note of that id and user, so that
    [db_note_exists] no longer finds it; every other note is found as
    before, the notes of other users are all kept, and deleting a note that
    does not exist changes nothing.  The id is one SQLite can bind. *)
Theorem delete_note_by_id_exists (user : str) (note_id : Z) (db : database) :
  sqlite_integer note_id = true ->
  exists db',
    delete_note_by_id user note_id db = Ok db' /\
    db_note_exists user note_id db' = Ok false /\
    (forall user' note_id',
        user' <> user \/ note_id' <> note_id ->
        db_note_exists user' note_id' db' = db_note_exists user' note_id' db) /\
    (forall user', user' <> user -> select_notes user' db' = select_notes user' db) /\
    (db_note_exists user note_id db = Ok false -> db' = db).
Proof.
  intros Hid. exists (delete_rows user note_id db).
  split; [now apply delete_note_by_id_ok|].
  rewrite !db_note_exists_ok by exact Hid. unfold delete_rows. cbn [notes].
  split; [|split; [|split]].
  - f_equal. rewrite existsb_filter. induction (notes db) as [|r l IH]; [reflexivity|].
    simpl. now destruct (row_matches user note_id r).
  - intros user' note_id' Hne. destruct (sqlite_integer note_id') eqn:Hid';
      [|now rewrite !db_note_exists_overflow].
    rewrite !db_note_exists_ok by exact Hid'. cbn [notes]. f_equal.
    rewrite existsb_filter. apply existsb_ext_in. intros r _.
    destruct (row_matches user' note_id' r) eqn:H1; [|reflexivity].
    destruct (row_matches user note_id r) eqn:H2; [|reflexivity].
    apply row_matches_iff in H1 as [<- <-]. apply row_matches_iff in H2 as [<- <-].
    destruct Hne; congruence.
  - intros user' Hne. unfold select_notes. cbn [notes]. f_equal.
    induction (notes db) as [|r l IH]; [reflexivity|]. simpl.
    destruct (row_matches user note_id r) eqn:H2; simpl.
    + apply row_matches_iff in H2 as [_ H2].
      destruct (str_eqb (row_user r) user') eqn:H1; [|exact IH].
      apply str_eqb_eq in H1. congruence.
    + destruct (str_eqb (row_user r) user'); now rewrite IH.
  - intros Hno. injection Hno as Hno.
    destruct db as [rows k]. cbn [notes last_id] in *. f_equal.
    apply filter_all. intros r Hr.
    destruct (row_matches user note_id r) eqn:H; [|reflexivity].
    assert (existsb (row_matches user note_id) rows = true)
      by (apply existsb_exists; now exists r).
    congruence.
Qed.

Lemma delete_note_by_id_exists_witness :
  exists db',
    delete_note_by_id (lit "ann") 1
      {| notes := [DbRow 1 (lit "ann") (lit "buy milk") None None]; last_id := 1 |}
    = Ok db' /\
    db_note_exists (lit "ann") 1 db' = Ok false.
Proof.
  destruct (delete_note_by_id_exists (lit "ann") 1
              {| notes := [DbRow 1 (lit "ann") (lit "buy milk") None None]; last_id := 1 |}
              eq_refl) as (db' & Hdel & Hex & _).
  exists db'. split; [exact Hdel | exact Hex].
Defined.

(** The next id is above the counter and above the ids of the table, and
    is the one behind the counter when no id is above the counter. *)
Lemma next_id_above (db : database) :
  (last_id db < next_id db)%Z /\
  Forall (fun r => (row_id r < next_id db)%Z) (notes db).
Proof.
  unfold next_id. induction (notes db) as [|r rows [IHc IHr]]; cbn [map fold_right].
  - split; [lia | constructor].
  - split; [lia|]. constructor; [lia|].
    eapply Forall_impl; [|exact IHr]. intros r' Hr'. cbn beta in *. lia.
Qed.

Lemma next_id_fresh (db : database) : ids_fresh db -> next_id db = (last_id db + 1)%Z.
Proof.
  intros [_ Hle]. unfold next_id. f_equal.
  induction Hle as [|r rows Hr _ IH]; cbn [map fold_right]; [reflexivity|].
  rewrite IH. lia.
Qed.

Lemma ids_fresh_insert (user note_ : str) (tag_string due : option str) (db : database) :
  ids_fresh db -> ids_fresh (insert_note user note_ tag_string due db).
Proof.
  intros [Hnd _]. destruct (next_id_above db) as [_ Hlt].
  unfold ids_fresh, insert_note. cbn [notes last_id]. split.
  - rewrite map_app. cbn [map row_id].
    apply NoDup_app; [exact Hnd | repeat constructor; intros [] |].
    intros k Hk [<- | []]. apply in_map_iff in Hk as (r & Hr & Hin).
    rewrite Forall_forall in Hlt. apply Hlt in Hin. lia.
  - apply Forall_app. split.
    + eapply Forall_impl; [|exact Hlt]. intros r Hr. cbn beta in *. lia.
    + repeat constructor. cbn. lia.
Qed.

Lemma ids_fresh_add (user note_ : str) (tags_ : list str) (due : option str)
    (db : database) :
  ids_fresh db -> ids_fresh (snd (add_note_to_db_call user note_ tags_ due db)).
Proof.
  intros H.
  destruct (add_note_to_db_call_cases user note_ tags_ due db) as [[e ->] | [_ ->]];
    [exact H | now apply ids_fresh_insert].
Qed.

(** Rows taken out of a table leave the ids of the others distinct. *)
Lemma ids_distinct_filter (keep : db_row -> bool) (rows : list db_row) :
  NoDup (map row_id rows) -> NoDup (map row_id (filter keep rows)).
Proof.
  induction rows as [|r rows IH]; cbn [map filter]; intros H; [constructor|].
  inversion H as [|? ? Hr Hrows]; subst. destruct (keep r); [|now apply IH].
  cbn [map]. constructor; [|now apply IH].
  intros Hin. apply Hr. apply in_map_iff in Hin as (r' & Hid & Hin).
  apply filter_In in Hin as [Hin _]. apply in_map_iff. now exists r'.
Qed.

Lemma ids_fresh_delete (user : str) (note_id : Z) (db : database) :
  ids_fresh db -> ids_fresh (delete_rows user note_id db).
Proof.
  intros [Hnd Hle]. split; cbn [delete_rows notes last_id].
  - now apply ids_distinct_filter.
  - apply Forall_forall. intros r Hr. apply filter_In in Hr as [Hr _].
    rewrite Forall_forall in Hle. now apply Hle.
Qed.

Lemma ids_fresh_update (user : str) (note_id : Z) (final_note final_tags : str)
    (final_due : option str) (db : database) :
  ids_fresh db -> ids_fresh (update_rows user note_id final_note final_tags final_due db).
Proof.
  intros [Hnd Hle]. split; cbn [update_rows notes last_id].
  - rewrite map_map. erewrite map_ext; [exact Hnd|].
    intros r. now destruct (row_matches user note_id r).
  - apply Forall_forall. intros r' Hr'. apply in_map_iff in Hr' as (r & <- & Hr).
    rewrite Forall_forall in Hle. apply Hle in Hr.
    now destruct (row_matches user note_id r).
Qed.

Lemma ids_fresh_import_txt (user : str) (lines : list str) (imported : nat)
    (db : database) :
  ids_fresh db -> ids_fresh (snd (import_txt_to_db user lines imported db)).
Proof.
  revert imported db. induction lines as [|line lines IH]; intros imported db H;
    [exact H|].
  cbn [import_txt_to_db]. destruct (import_txt_line line) as [[[n t] d]|]; [|now apply IH].
  pose proof (ids_fresh_add user n t d db H) as H'.
  destruct (add_note_to_db_call user n t d db) as [[flag|e] db']; [now apply IH | exact H'].
Qed.

Lemma ids_fresh_import_json (user : str) (data : list json_item) (imported : nat)
    (db : database) :
  ids_fresh db -> ids_fresh (snd (import_json_to_db user data imported db)).
Proof.
  revert imported db. induction data as [|item data IH]; intros imported db H;
    [exact H|].
  cbn [import_json_to_db]. destruct (item_note item) as [[|c n]|]; try now apply IH.
  match goal with |- context [add_note_to_db_call user ?n ?t ?d db] =>
    pose proof (ids_fresh_add user n t d db H) as H';
    destruct (add_note_to_db_call user n t d db) as [[flag|e] db'] end;
    [now apply IH | exact H'].
Qed.

(** X6: every operation on the table keeps the ids distinct and at most the
    AUTOINCREMENT counter: saving, deleting, editing and the two imports. *)
Theorem ids_fresh_preserved (db : database) (user : str) :
  ids_fresh db ->
  (forall note_ tags_ due, ids_fresh (snd (add_note_to_db_call user note_ tags_ due db))) /\
  (forall note_id db', delete_note_by_id user note_id db = Ok db' -> ids_fresh db') /\
  (forall note_id new_note new_tags new_due res,
      edit_note_by_id user note_id new_note new_tags new_due db = Ok res ->
      ids_fresh (snd res)) /\
  (forall lines imported, ids_fresh (snd (import_txt_to_db user lines imported db))) /\
  (forall data imported, ids_fresh (snd (import_json_to_db user data imported db))).
Proof.
  intros H. split; [|split; [|split; [|split]]].
  - intros. now apply ids_fresh_add.
  - intros note_id db'. unfold delete_note_by_id, bind_int.
    destruct (sqlite_integer note_id); [|discriminate]. cbn [bind].
    intros [= <-]. now apply ids_fresh_delete.
  - intros note_id new_note new_tags new_due res. unfold edit_note_by_id, bind_int.
    destruct (sqlite_integer note_id); [|discriminate]. cbn [bind].
    destruct (select_row user note_id db) as [row|]; intros [= <-]; cbn [snd];
      [now apply ids_fresh_update | exact H].
  - intros. now apply ids_fresh_import_txt.
  - intros. now apply ids_fresh_import_json.
Qed.

Lemma ids_fresh_preserved_witness :
  ids_fresh (snd (add_note_to_db_call (lit "ann") (lit "buy milk") [] None empty_db)).
Proof.
  assert (H0 : ids_fresh empty_db) by (split; constructor).
  exact (proj1 (ids_fresh_preserved empty_db (lit "ann") H0) (lit "buy milk") [] None).
Defined.

(** X7: on a table with fresh ids, a note that [add_note_to_db] saves gets
    the id behind the counter, which no note of the table has; [db_note_exists]
    finds it under that id for its user, and finds under the other ids what
    it found before.  The counter is below the greatest id of SQLite. *)
Theorem add_note_to_db_new_id (user note_ : str) (tags_ : list str) (due : option str)
    (db : database) :
  ids_fresh db ->
  sqlite_integer (last_id db + 1) = true ->
  snd (add_note_to_db_call user note_ tags_ due db) <> db ->
  let db' := snd (add_note_to_db_call user note_ tags_ due db) in
  last_id db' = (last_id db + 1)%Z /\
  (forall user', db_note_exists user' (last_id db') db = Ok false) /\
  db_note_exists user (last_id db') db' = Ok true /\
  (forall user' note_id, note_id <> last_id db' ->
      db_note_exists user' note_id db' = db_note_exists user' note_id db).
Proof.
  intros Hfresh Hid Hsaved. pose proof (next_id_fresh db Hfresh) as Hnext.
  destruct Hfresh as [_ Hle].
  destruct (add_note_to_db_call_cases user note_ tags_ due db) as [[e E] | [_ E]];
    rewrite E in *; [now contradiction Hsaved|].
  cbn [snd]. unfold insert_note. cbn [notes last_id]. rewrite !Hnext.
  split; [reflexivity|]. split; [|split].
  - intros user'. rewrite db_note_exists_ok by exact Hid. f_equal.
    destruct (existsb (row_matches user' (last_id db + 1)) (notes db)) eqn:Hex;
      [|reflexivity].
    apply existsb_exists in Hex as (r & Hin & Hr). apply row_matches_iff in Hr as [Hr _].
    rewrite Forall_forall in Hle. apply Hle in Hin. lia.
  - rewrite db_note_exists_ok by exact Hid. f_equal. cbn [notes].
    rewrite existsb_app. cbn [existsb]. unfold row_matches at 2. cbn [row_id row_user].
    now rewrite Z.eqb_refl, str_eqb_refl, orb_true_r.
  - intros user' note_id Hne. destruct (sqlite_integer note_id) eqn:Hid';
      [|now rewrite !db_note_exists_overflow].
    rewrite !db_note_exists_ok by exact Hid'. f_equal. cbn [notes].
    rewrite existsb_app. cbn [existsb]. unfold row_matches at 2. cbn [row_id row_user].
    apply Z.eqb_neq in Hne. rewrite Z.eqb_sym in Hne. rewrite Hne.
    now rewrite !orb_false_r.
Qed.

Lemma add_note_to_db_new_id_witness :
  db_note_exists (lit "ann") 1
    (snd (add_note_to_db_call (lit "ann") (lit "buy milk") [] None empty_db)) = Ok true.
Proof.
  assert (H0 : ids_fresh empty_db) by (split; constructor).
  assert (H1 : snd (add_note_to_db_call (lit "ann") (lit "buy milk") [] None empty_db)
               <> empty_db) by discriminate.
  exact (proj1 (proj2 (proj2 (add_note_to_db_new_id (lit "ann") (lit "buy milk") []
                                 None empty_db H0 eq_refl H1)))).
Defined.

(** ** [edit_note_by_id] *)

(** The table an edit leaves when the note is found. *)
Lemma edit_note_by_id_found (user : str) (note_id : Z) (new_note new_tags new_due : str)
    (db : database) (row : db_row) :
  sqlite_integer note_id = true ->
  find (row_matches user note_id) (notes db) = Some row ->
  edit_note_by_id user note_id new_note new_tags new_due db
  = Ok (true,
        {| notes :=
             map (fun r =>
                    if row_matches user note_id r
                    then DbRow (row_id r) (row_user r)
                           (if truthy_str (strip new_note) then strip new_note
                            else row_note row)
                           (Some match tag_list_of (strip new_tags) with
                                 | _ :: _ => join SPACE (tag_list_of (strip new_tags))
                                 | [] => or_empty (row_tags row)
                                 end)
                           (if truthy_str (strip new_due) then Some (strip new_due)
                            else row_due_date row)
                    else r)
                 (notes db);
           last_id := last_id db |}).
Proof.
  intros Hid H. unfold edit_note_by_id, select_row. rewrite (bind_int_ok _ Hid).
  cbn [bind]. now rewrite H.
Qed.


Lemma find_existsb (user : str) (note_id : Z) (db : database) :
  (exists row, find (row_matches user note_id) (notes db) = Some row /\
               In row (notes db) /\ row_matches user note_id row = true) /\
  existsb (row_matches user note_id) (notes db) = true \/
  find (row_matches user note_id) (notes db) = None /\
  existsb (row_matches user note_id) (notes db) = false.
Proof.
  destruct (find _ _) as [row|] eqn:E; [left | right].
  - apply find_some in E as [Hin Hrow]. split; [now exists row|].
    apply existsb_exists. now exists row.
  - split; [reflexivity|].
    destruct (existsb _ _) eqn:Hex; [|reflexivity].
    apply existsb_exists in Hex as (r & Hin & Hr).
    apply (find_none _ _ E) in Hin. congruence.
Qed.



Lemma ids_fresh_unique (db : database) (r1 r2 : db_row) :
  ids_fresh db -> In r1 (notes db) -> In r2 (notes db) -> row_id r1 = row_id r2 ->
  r1 = r2.
Proof.
  intros [Hnd _]. induction (notes db) as [|r l IH]; [contradiction|].
  cbn [map] in Hnd. inversion Hnd as [|? ? Hr Hl]; subst.
  intros [-> | H1] [-> | H2] Hid; auto.
  - exfalso. apply Hr. rewrite Hid. now apply in_map.
  - exfalso. apply Hr. rewrite <- Hid. now apply in_map.
Qed.

Lemma tag_list_of_blank (your_tags : str) : blank your_tags -> tag_list_of (strip your_tags) = [].
Proof. intros H. now rewrite strip_blank. Qed.

(** X9: on a table with fresh ids, an edit in which the user leaves the
    three prompts blank keeps the note's text and due date; its tags stay
    when there are some, and turn from NULL into the empty string when there
    are none. *)
Theorem edit_note_by_id_blank (user : str) (note_id : Z)
    (new_note new_tags new_due : str) (db : database) (i : nat) (r : db_row) :
  sqlite_integer note_id = true ->
  ids_fresh db ->
  blank new_note -> blank new_tags -> blank new_due ->
  nth_error (notes db) i = Some r ->
  row_matches user note_id r = true ->
  exists db',
    edit_note_by_id user note_id new_note new_tags new_due db = Ok (true, db') /\
    nth_error (notes db') i
    = Some (DbRow (row_id r) (row_user r) (row_note r)
                  (Some (or_empty (row_tags r))) (row_due_date r)).
Proof.
  intros Hid Hfresh Hn Ht Hd Hi Hr.
  destruct (find_existsb user note_id db) as [[(row & E & Hin & Hrow) _] | [E _]].
  - assert (row = r) as ->.
    { apply (ids_fresh_unique db); [exact Hfresh | exact Hin | |].
      - now apply nth_error_In with i.
      - apply row_matches_iff in Hrow as [-> _].
        now apply row_matches_iff in Hr as [-> _]. }
    rewrite (edit_note_by_id_found _ _ new_note new_tags new_due _ _ Hid E).
    eexists. split; [reflexivity|].
    cbn [notes]. rewrite nth_error_map, Hi. cbn [option_map]. rewrite Hr.
    now rewrite (tag_list_of_blank _ Ht), !strip_blank.
  - apply nth_error_In in Hi. apply (find_none _ _ E) in Hi. congruence.
Qed.

Lemma edit_note_by_id_blank_witness :
  exists db',
    edit_note_by_id (lit "ann") 1 (lit " ") (lit "") (lit "")
      {| notes := [DbRow 1 (lit "ann") (lit "buy milk") None (Some (lit "2025-08-01"))];
         last_id := 1 |}
    = Ok (true, db') /\
    nth_error (notes db') 0
    = Some (DbRow 1 (lit "ann") (lit "buy milk") (Some []) (Some (lit "2025-08-01"))).
Proof.
  apply (edit_note_by_id_blank (lit "ann") 1 (lit " ") (lit "") (lit "")
           {| notes := [DbRow 1 (lit "ann") (lit "buy milk") None
                              (Some (lit "2025-08-01"))];
              last_id := 1 |} 0
           (DbRow 1 (lit "ann") (lit "buy milk") None (Some (lit "2025-08-01")))).
  - reflexivity.
  - split; cbn [notes last_id map row_id].
    + constructor; [intros [] | constructor].
    + repeat constructor. cbn. lia.
  - repeat constructor.
  - constructor.
  - constructor.
  - reflexivity.
  - reflexivity.
Defined.

Lemma In_join (x : char) (sep : str) (parts : list str) :
  In x (join sep parts) -> In x sep \/ exists p, In p parts /\ In x p.
Proof.
  induction parts as [|p parts IH]; [contradiction|].
  destruct parts as [|p2 parts].
  - intros H. right. exists p. split; [now left | exact H].
  - rewrite join_cons by discriminate. intros H.
    apply in_app_or in H as [H | H]; [right; exists p; split; [now left | exact H]|].
    apply in_app_or in H as [H | H]; [now left|].
    destruct (IH H) as [H' | (q & Hq & Hx)]; [now left|].
    right. exists q. split; [now right | exact Hx].
Qed.



(** ** The two imports *)

(** X11: [import_json_to_db] does not get past the first object that has a
    note: it hands that note to [add_note_to_db], and the exception of that
    call ends the import, with the table as the call left it; the objects
    behind it are not read, and nothing is counted.  It returns only when no
    object has a note, with the table as it was. *)
Theorem import_json_to_db_first_note (user : str) (data : list json_item)
    (imported : nat) (db : database) :
  match find has_note data with
  | None => import_json_to_db user data imported db = (Returns imported, db)
  | Some item =>
      exists e db',
        add_note_to_db_call user (or_empty (item_note item))
          (match item_tags item with Some t => t | None => [] end)
          (item_due_date item) db
        = (Raises e, db') /\
        import_json_to_db user data imported db = (Raises e, db')
  end.
Proof.
  revert imported db. induction data as [|item data IH]; intros imported db;
    [reflexivity|].
  destruct item as [[[|c n]|] tags_ due]; cbn [import_json_to_db find has_note
    item_note item_tags item_due_date or_empty]; try apply IH.
  destruct (add_note_to_db_call_raises user (c :: n)
              (match tags_ with Some t => t | None => [] end) due db) as (e & db' & E).
  exists e, db'. now rewrite E.
Qed.

Lemma import_txt_to_db_stops (user : str) (lines : list str) (imported : nat)
    (db : database) :
  match first_note lines with
  | None => import_txt_to_db user lines imported db = (Returns imported, db)
  | Some (note_part, tags_, due) =>
      exists e db',
        add_note_to_db_call user note_part tags_ due db = (Raises e, db') /\
        import_txt_to_db user lines imported db = (Raises e, db')
  end.
Proof.
  revert imported db. induction lines as [|line lines IH]; intros imported db;
    [reflexivity|].
  cbn [import_txt_to_db first_note].
  destruct (import_txt_line line) as [[[n t] d]|]; [|apply IH].
  destruct (add_note_to_db_call_raises user n t d db) as (e & db' & E).
  exists e, db'. now rewrite E.
Qed.

Lemma import_txt_line_blank (line : str) : blank line -> import_txt_line line = None.
Proof. intros H. unfold import_txt_line. now rewrite (strip_blank _ H). Qed.

Lemma import_txt_line_not_blank (line : str) :
  ~ blank line -> exists fields, import_txt_line line = Some fields.
Proof.
  intros H. unfold import_txt_line.
  destruct (strip line) as [|c s] eqn:E; cbn [truthy_str negb]; [|now eexists].
  exfalso. apply H. destruct (strip_trimmed line) as [(l & r & Hs & Hl & Hr) _].
  rewrite E in Hs. rewrite Hs. apply blank_app. now split.
Qed.

Lemma first_note_blank (before rest : list str) :
  Forall blank before -> first_note (before ++ rest) = first_note rest.
Proof.
  induction 1 as [|line before Hline _ IH]; [reflexivity|].
  cbn [app first_note]. now rewrite (import_txt_line_blank _ Hline).
Qed.

(** X12: [import_txt_to_db] does not get past the first line that is not
    blank: it hands the note of that line to [add_note_to_db], and the
    exception of that call ends the import, with the table as the call left
    it; the lines behind it are not read, and nothing is counted.  Over
    blank lines alone it returns, with the table as it was. *)
Theorem import_txt_to_db_first_line (user : str) (before : list str) (line : str)
    (rest : list str) (imported : nat) (db : database) :
  Forall blank before -> ~ blank line ->
  import_txt_to_db user before imported db = (Returns imported, db) /\
  exists note_part tags_ due e db',
    import_txt_line line = Some (note_part, tags_, due) /\
    add_note_to_db_call user note_part tags_ due db = (Raises e, db') /\
    import_txt_to_db user (before ++ line :: rest) imported db = (Raises e, db').
Proof.
  intros Hbefore Hline. split.
  - pose proof (import_txt_to_db_stops user (before ++ []) imported db) as H.
    rewrite (first_note_blank _ _ Hbefore), app_nil_r in H. exact H.
  - destruct (import_txt_line_not_blank line Hline) as [[[n t] d] E].
    pose proof (import_txt_to_db_stops user (before ++ line :: rest) imported db) as H.
    rewrite (first_note_blank _ _ Hbefore) in H. cbn [first_note] in H. rewrite E in H.
    destruct H as (e & db' & Hcall & Himport).
    now exists n, t, d, e, db'.
Qed.

Lemma import_txt_to_db_first_line_witness :
  import_txt_to_db (lit "ann") [lit "  "] 0 empty_db = (Returns 0, empty_db) /\
  exists note_part tags_ due e db',
    import_txt_line (lit "Buy groceries #errand [due:2025-07-31]")
    = Some (note_part, tags_, due) /\
    add_note_to_db_call (lit "ann") note_part tags_ due empty_db = (Raises e, db') /\
    import_txt_to_db (lit "ann")
      ([lit "  "] ++ lit "Buy groceries #errand [due:2025-07-31]"
                  :: [lit "Clean the house #chores"]) 0 empty_db
    = (Raises e, db').
Proof.
  apply import_txt_to_db_first_line.
  - repeat constructor.
  - intros H. inversion H as [|c s Hc _]. discriminate Hc.
Defined.

(** What the import of the witness leaves: the first note, and not the
    second. *)
Example import_txt_to_db_two_notes :
  import_txt_to_db (lit "ann")
    [lit "  "; lit "Buy groceries #errand [due:2025-07-31]"; lit "Clean the house #chores"]
    0 empty_db
  = (Raises ProgrammingError,
     {| notes := [DbRow 1 (lit "ann") (lit "Buy groceries") (Some (lit "#errand"))
                        (Some (lit "2025-07-31"))];
        last_id := 1 |}).
Proof. reflexivity. Qed.

(** ** [import_txt_to_db]: notes without text *)

(** X13: from a line that is not blank and holds tags and due markers only
    [import_txt_to_db] takes a note with an empty text, and hands it to
    [add_note_to_db] as such. *)
Theorem import_txt_line_empty_note (line : str) :
  strip line <> [] ->
  Forall (fun w => is_tag w = true \/ startswith w DUE = true) (split_ws (strip line)) ->
  exists tags_ due, import_txt_line line = Some ([], tags_, due).
Proof.
  intros Hne Hall. unfold import_txt_line.
  destruct (strip line) as [|c s] eqn:E; [contradiction|]. cbn [truthy_str negb].
  eexists _, _. do 3 f_equal.
  replace (filter _ (split_ws (c :: s))) with (@nil str); [reflexivity|].
  symmetry. induction Hall as [|w l Hw _ IH]; [reflexivity|]. cbn [filter].
  destruct Hw as [-> | ->]; cbn [negb andb]; [exact IH|].
  now rewrite andb_false_r.
Qed.

Lemma import_txt_line_empty_note_witness :
  exists tags_ due, import_txt_line (lit "#todo [due:2025-08-01]") = Some ([], tags_, due).
Proof.
  apply import_txt_line_empty_note.
  - discriminate.
  - assert (E : split_ws (strip (lit "#todo [due:2025-08-01]"))
                = [lit "#todo"; lit "[due:2025-08-01]"]) by reflexivity.
    rewrite E. constructor; [now left|]. constructor; [now right | constructor].
Defined.

(** ** [show_due_alerts_from_db] and the views *)

Lemma date_ltb_not_eqb (d today : date) : date_ltb d today = true -> date_eqb d today = false.
Proof.
  unfold date_ltb, date_eqb. rewrite Z.ltb_lt, Z.eqb_neq. lia.
Qed.

Lemma row_selected_overdue (today week_later : date) (row : note_row) :
  row_selected today week_later (lit "overdue") row
  = match snd row with
    | Some ((_ :: _) as due) =>
        match strptime_ymd due with
        | Ok d => date_ltb d today
        | Raise _ => false
        end
    | _ => false
    end.
Proof.
  unfold row_selected. destruct (snd row) as [[|c s]|]; try reflexivity.
  destruct (strptime_ymd (c :: s)); [|reflexivity].
  change (str_eqb (lit "overdue") (lit "today")) with false.
  change (str_eqb (lit "overdue") (lit "overdue")) with true.
  change (str_eqb (lit "overdue") (lit "week")) with false.
  cbn [andb orb]. apply orb_false_r.
Qed.

Lemma row_selected_today (today week_later : date) (row : note_row) :
  row_selected today week_later (lit "today") row
  = match snd row with
    | Some ((_ :: _) as due) =>
        match strptime_ymd due with
        | Ok d => date_eqb d today
        | Raise _ => false
        end
    | _ => false
    end.
Proof.
  unfold row_selected. destruct (snd row) as [[|c s]|]; try reflexivity.
  destruct (strptime_ymd (c :: s)); [|reflexivity].
  change (str_eqb (lit "today") (lit "today")) with true.
  change (str_eqb (lit "today") (lit "overdue")) with false.
  change (str_eqb (lit "today") (lit "week")) with false.
  cbn [andb orb]. now rewrite !orb_false_r.
Qed.

Lemma alerts_loop_counts (today week_later : date) (rows : list db_row)
    (overdue due_today : nat) :
  alerts_loop today
    (flat_map (fun r => match row_due_date r with Some d => [d] | None => [] end) rows)
    overdue due_today
  = Ok (overdue
        + length (filter (row_selected today week_later (lit "overdue"))
                    (map (fun r => (row_id r, row_note r, row_tags r, row_due_date r)) rows)),
        due_today
        + length (filter (row_selected today week_later (lit "today"))
                    (map (fun r => (row_id r, row_note r, row_tags r, row_due_date r)) rows))).
Proof.
  revert overdue due_today. induction rows as [|r rows IH]; intros overdue due_today.
  - cbn. now rewrite !Nat.add_0_r.
  - cbn [flat_map map filter]. rewrite row_selected_overdue, row_selected_today. cbn [snd].
    destruct (row_due_date r) as [[|c s]|]; cbn [app alerts_loop].
    + change (strptime_ymd []) with (@Raise date ValueError).
      cbn [bind try_except_ValueError fst snd]. apply IH.
    + destruct (strptime_ymd (c :: s)) as [d|e] eqn:Hd.
      * cbn [bind try_except_ValueError].
        destruct (date_ltb d today) eqn:Hlt.
        -- rewrite (date_ltb_not_eqb _ _ Hlt).
           cbn [bind try_except_ValueError fst snd length]. rewrite IH. f_equal. f_equal; lia.
        -- destruct (date_eqb d today);
             cbn [bind try_except_ValueError fst snd length]; rewrite IH; f_equal; f_equal; lia.
      * apply strptime_ymd_raises in Hd as Hv. subst e.
        cbn [bind try_except_ValueError fst snd]. apply IH.
    + apply IH.
Qed.

(** X14: the two numbers of the reminder panel are the numbers of rows the
    views ["overdue"] and ["today"] list for the same user on the same
    day. *)
Theorem show_due_alerts_from_db_counts (db : database) (today : date) (user : str) :
  (1 <= toordinal today + 7 <= MAXORDINAL)%Z ->
  exists overdue_rows today_rows,
    view_due_notes db today user (lit "overdue") = Ok overdue_rows /\
    view_due_notes db today user (lit "today") = Ok today_rows /\
    show_due_alerts_from_db db today user
    = Ok (length overdue_rows, length today_rows).
Proof.
  intros Hrange. rewrite !view_due_notes_due_loop by exact Hrange.
  rewrite !due_loop_filter. eexists _, _. split; [reflexivity|]. split; [reflexivity|].
  unfold show_due_alerts_from_db, select_due_dates, select_notes.
  now rewrite (alerts_loop_counts today (Date (toordinal today + 7))).
Qed.

Lemma show_due_alerts_from_db_counts_witness :
  exists overdue_rows today_rows,
    view_due_notes
      {| notes := [DbRow 1 (lit "ann") (lit "pay rent") None (Some (lit "2025-07-01"));
                   DbRow 2 (lit "ann") (lit "call mom") None (Some (lit "soon"))];
         last_id := 2 |} (Date 739464) (lit "ann") (lit "overdue") = Ok overdue_rows /\
    view_due_notes
      {| notes := [DbRow 1 (lit "ann") (lit "pay rent") None (Some (lit "2025-07-01"));
                   DbRow 2 (lit "ann") (lit "call mom") None (Some (lit "soon"))];
         last_id := 2 |} (Date 739464) (lit "ann") (lit "today") = Ok today_rows /\
    show_due_alerts_from_db
      {| notes := [DbRow 1 (lit "ann") (lit "pay rent") None (Some (lit "2025-07-01"));
                   DbRow 2 (lit "ann") (lit "call mom") None (Some (lit "soon"))];
         last_id := 2 |} (Date 739464) (lit "ann")
    = Ok (length overdue_rows, length today_rows).
Proof.
  apply show_due_alerts_from_db_counts. split; discriminate.
Defined.

(** X15: on one day, every note the view ["today"] lists is also listed by
    the view ["week"], and no note the view ["overdue"] lists is listed by
    either of them. *)
Theorem view_due_notes_views (db : database) (today : date) (user : str) :
  (1 <= toordinal today + 7 <= MAXORDINAL)%Z ->
  exists overdue_rows today_rows week_rows,
    view_due_notes db today user (lit "overdue") = Ok overdue_rows /\
    view_due_notes db today user (lit "today") = Ok today_rows /\
    view_due_notes db today user (lit "week") = Ok week_rows /\
    (forall row, In row today_rows -> In row week_rows) /\
    (forall row, In row overdue_rows -> ~ In row today_rows /\ ~ In row week_rows).
Proof.
  intros Hrange. rewrite !view_due_notes_due_loop by exact Hrange.
  rewrite !due_loop_filter. cbn [app]. eexists _, _, _.
  split; [reflexivity|]. split; [reflexivity|]. split; [reflexivity|].
  split.
  - intros row Hrow. apply filter_In in Hrow as [Hin Hsel]. apply filter_In.
    split; [exact Hin|].
    apply row_selected_matches in Hsel as (due & d & Hdue & Hne & Hd & Hm).
    apply row_selected_matches. exists due, d. repeat split; try assumption.
    destruct Hm as [[_ Hm] | [[Hm _] | [Hm _]]]; try discriminate.
    right; right. split; [reflexivity | cbn [toordinal]; lia].
  - intros row Hrow. apply filter_In in Hrow as [_ Hsel].
    apply row_selected_matches in Hsel as (due & d & Hdue & _ & Hd & Hm).
    destruct Hm as [[Hm _] | [[_ Hm] | [Hm _]]]; try discriminate.
    split; intros Hrow'; apply filter_In in Hrow' as [_ Hsel'];
      apply row_selected_matches in Hsel' as (due' & d' & Hdue' & _ & Hd' & Hm');
      (assert (due' = due) by congruence); subst due';
      (assert (d' = d) by congruence); subst d';
      destruct Hm' as [[_ Hm'] | [[Hm' _] | [_ Hm']]]; try discriminate; lia.
Qed.

Lemma view_due_notes_views_witness :
  exists overdue_rows today_rows week_rows,
    view_due_notes
      {| notes := [DbRow 1 (lit "ann") (lit "pay rent") None (Some (lit "2025-07-01"));
                   DbRow 2 (lit "ann") (lit "call mom") None (Some (lit "2025-08-01"))];
         last_id := 2 |} (Date 739464) (lit "ann") (lit "overdue") = Ok overdue_rows /\
    view_due_notes
      {| notes := [DbRow 1 (lit "ann") (lit "pay rent") None (Some (lit "2025-07-01"));
                   DbRow 2 (lit "ann") (lit "call mom") None (Some (lit "2025-08-01"))];
         last_id := 2 |} (Date 739464) (lit "ann") (lit "today") = Ok today_rows /\
    view_due_notes
      {| notes := [DbRow 1 (lit "ann") (lit "pay rent") None (Some (lit "2025-07-01"));
                   DbRow 2 (lit "ann") (lit "call mom") None (Some (lit "2025-08-01"))];
         last_id := 2 |} (Date 739464) (lit "ann") (lit "week") = Ok week_rows /\
    (forall row, In row today_rows -> In row week_rows) /\
    (forall row, In row overdue_rows -> ~ In row today_rows /\ ~ In row week_rows).
Proof.
  apply view_due_notes_views. split; discriminate.
Defined.

(** ** [register_user] and [login_user] *)

Lemma universal_newlines_no_cr (text : str) : ~ In CR text -> universal_newlines text = text.
Proof.
  induction text as [|c text IH]; intros H; [reflexivity|].
  cbn [universal_newlines]. destruct (char_eqb c CR) eqn:E.
  - apply char_eqb_eq in E. subst c. exfalso. apply H. now left.
  - rewrite IH; [reflexivity|]. intros Hin. apply H. now right.
Qed.

Lemma lines_from_no_newline (cur s : str) :
  ~ In NEWLINE s -> lines_from cur (s ++ [NEWLINE]) = [cur ++ s ++ [NEWLINE]].
Proof.
  revert cur. induction s as [|c s IH]; intros cur H; cbn [app lines_from].
  - now rewrite char_eqb_refl.
  - destruct (char_eqb c NEWLINE) eqn:E.
    + apply char_eqb_eq in E. subst c. exfalso. apply H. now left.
    + rewrite IH, <- app_assoc; [reflexivity|]. intros Hin. apply H. now right.
Qed.

(** Behind a text that ends with a newline, new text starts a new line. *)
Lemma lines_from_app (cur text more : str) :
  lines_from cur (text ++ [NEWLINE] ++ more)
  = lines_from cur (text ++ [NEWLINE]) ++ lines_from [] more.
Proof.
  revert cur. induction text as [|c text IH]; intros cur; cbn [app lines_from].
  - now rewrite char_eqb_refl.
  - destruct (char_eqb c NEWLINE); [cbn [app]; f_equal|]; apply IH.
Qed.

Lemma file_lines_append (text entry : str) :
  ~ In CR text -> text = [] \/ (exists text', text = text' ++ [NEWLINE]) ->
  one_line entry ->
  file_lines (text ++ entry ++ [NEWLINE]) = file_lines text ++ [entry ++ [NEWLINE]].
Proof.
  intros Hcr Hend [Hnl Hcr']. unfold file_lines.
  rewrite !universal_newlines_no_cr; try assumption.
  - destruct Hend as [-> | [text' ->]].
    + cbn [app]. rewrite lines_from_no_newline by exact Hnl. reflexivity.
    + rewrite <- !app_assoc. rewrite lines_from_app.
      rewrite (lines_from_no_newline [] entry) by exact Hnl. reflexivity.
  - intros H. apply in_app_or in H as [H | H]; [auto|].
    apply in_app_or in H as [H | [H | []]]; [auto | discriminate].
Qed.

Lemma is_hex_not_space (c : char) : is_hex c = true -> is_space c = false.
Proof.
  unfold is_hex. intros H. destruct (is_space c) eqn:E; [exfalso | reflexivity].
  unfold is_space in E.
  rewrite !orb_true_iff, !andb_true_iff, !N.leb_le in H.
  rewrite !orb_true_iff, !andb_true_iff, !N.leb_le, !N.eqb_eq in E. lia.
Qed.

Lemma is_hex_not_In (c : char) (h : str) :
  is_hex c = false -> Forall (fun x => is_hex x = true) h -> ~ In c h.
Proof.
  intros Hc Hh Hin. rewrite Forall_forall in Hh. apply Hh in Hin. congruence.
Qed.

Lemma count_split_sep_from_char (c : char) (cur s : str) :
  length (split_sep_from [c] cur 0 s) = S (count_occ N.eq_dec s c).
Proof.
  revert cur. induction s as [|x s IH]; intros cur; [reflexivity|].
  cbn [split_sep_from startswith count_occ].
  destruct (char_eqb x c) eqn:E; cbn [andb pred length].
  - apply char_eqb_eq in E. subst x. destruct (N.eq_dec c c); [|contradiction].
    cbn [length]. now rewrite IH.
  - destruct (N.eq_dec x c) as [->|]; [now rewrite char_eqb_refl in E | apply IH].
Qed.

Lemma login_loop_app (username hashed_pw : str) (l1 l2 : list str) :
  login_loop username hashed_pw (l1 ++ l2)
  = match login_loop username hashed_pw l1 with
    | Ok None => login_loop username hashed_pw l2
    | other => other
    end.
Proof.
  induction l1 as [|line l1 IH]; [reflexivity|]. cbn [app login_loop].
  destruct (unpack2 (split_sep COLON (strip line))) as [[u p]|e]; cbn [bind]; [|reflexivity].
  now destruct (str_eqb u username && str_eqb p hashed_pw).
Qed.

Lemma split_sep_user_line (u h : str) :
  ~ In (chr ":") u -> ~ In (chr ":") h -> split_sep COLON (u ++ COLON ++ h) = [u; h].
Proof.
  intros Hu Hh. unfold split_sep. change COLON with [chr ":"].
  rewrite split_sep_from_char_word by exact Hu. cbn [app].
  rewrite split_sep_from_char_sep. f_equal.
  now apply (split_sep_char_absent (chr ":")).
Qed.

Lemma login_loop_users (username hashed_pw : str) (lines : list str) :
  Forall line_of_user lines ->
  login_loop username hashed_pw lines = Ok None \/
  login_loop username hashed_pw lines = Ok (Some username).
Proof.
  induction 1 as [|line lines (u & p & Hs & Hu & Hp) _ IH]; [now left|].
  cbn [login_loop]. rewrite Hs, split_sep_user_line by assumption. cbn [unpack2 bind].
  destruct (str_eqb u username && str_eqb p hashed_pw); [now right | exact IH].
Qed.

Section UsersFacts.

Variable hash_password : str -> str.

Hypothesis hash_password_hex :
  forall password, Forall (fun c => is_hex c = true) (hash_password password).

(** The line [register_user] writes, as [login_user] reads it. *)
Lemma strip_entry (username password : str) :
  strip (strip username ++ COLON ++ hash_password password ++ [NEWLINE])
  = strip username ++ COLON ++ hash_password password.
Proof.
  destruct (strip_trimmed username) as [_ [H1 H2]].
  pose proof (hash_password_hex password) as Hh.
  apply trimmed_strip. split; [|split].
  - exists [], [NEWLINE]. rewrite <- !app_assoc. repeat split; repeat constructor.
  - destruct (strip username); [reflexivity | exact H1].
  - rewrite !rev_app_distr.
    destruct (rev (hash_password password)) as [|c r] eqn:E; [reflexivity|].
    cbn. apply is_hex_not_space. rewrite Forall_forall in Hh. apply Hh, in_rev.
    rewrite E. now left.
Qed.

Lemma entry_one_line (username password : str) :
  one_line (strip username) ->
  one_line (strip username ++ COLON ++ hash_password password).
Proof.
  intros [Hnl Hcr]. pose proof (hash_password_hex password) as Hh.
  split; intros H; apply in_app_or in H as [H | H]; auto;
    apply in_app_or in H as [[H | []] | H]; try discriminate;
    revert H; now apply is_hex_not_In.
Qed.

Lemma register_user_cases (username password : str) (file : option str) :
  users_file_ok file -> one_line (strip username) ->
  register_user hash_password username password file = (None, file) \/
  (fst (register_user hash_password username password file) = Some (strip username) /\
   lines_of (snd (register_user hash_password username password file))
   = lines_of file
     ++ [strip username ++ COLON ++ hash_password (strip password) ++ [NEWLINE]] /\
   exists text,
     snd (register_user hash_password username password file) = Some text /\
     ~ In CR text /\ exists text', text = text' ++ [NEWLINE]).
Proof.
  intros Hok Hname. unfold register_user.
  destruct (match file with Some text => _ | None => false end); [now left | right].
  cbn [fst snd]. split; [reflexivity|].
  pose proof (entry_one_line username (strip password) Hname) as Hentry.
  destruct file as [text|]; cbn [lines_of].
  - destruct Hok as (Hcr & Hend & _). split.
    + pose proof (file_lines_append text _ Hcr Hend Hentry) as Hfl.
      rewrite <- !app_assoc in Hfl. exact Hfl.
    + eexists. split; [reflexivity|]. split.
      * intros H. apply in_app_or in H as [H | H]; [auto|].
        rewrite !app_assoc in H. apply in_app_or in H as [H | [H | []]];
          [|discriminate]. rewrite <- app_assoc in H. now apply Hentry in H.
      * exists (text ++ strip username ++ COLON ++ hash_password (strip password)).
        now rewrite <- !app_assoc.
  - split.
    + pose proof (file_lines_append [] _ (fun f => f) (or_introl eq_refl) Hentry) as Hfl.
      cbn [app] in Hfl. rewrite <- !app_assoc in Hfl. exact Hfl.
    + eexists. split; [reflexivity|]. split.
      * intros H. rewrite !app_assoc in H. apply in_app_or in H as [H | [H | []]];
          [|discriminate]. rewrite <- app_assoc in H. now apply Hentry in H.
      * exists (strip username ++ COLON ++ hash_password (strip password)).
        now rewrite <- !app_assoc.
Qed.

Lemma login_user_lines (username password : str) (file : option str) :
  login_user hash_password username password file
  = login_loop (strip username) (hash_password (strip password)) (lines_of file).
Proof. now destruct file. Qed.

Lemma entry_line_of_user (username password : str) :
  ~ In (chr ":") (strip username) ->
  line_of_user (strip username ++ COLON ++ hash_password password ++ [NEWLINE]).
Proof.
  intros Hu. exists (strip username), (hash_password password).
  split; [apply strip_entry|]. split; [exact Hu|].
  now apply is_hex_not_In with (2 := hash_password_hex password).
Qed.

(** X16: a [users.txt] of one user per line stays so when [register_user]
    adds a name that holds no colon and no line break. *)
Theorem register_user_keeps_file_ok (username password : str) (file : option str) :
  users_file_ok file -> one_line (strip username) -> ~ In (chr ":") (strip username) ->
  users_file_ok (snd (register_user hash_password username password file)).
Proof.
  intros Hok Hname Hcolon.
  destruct (register_user_cases username password file Hok Hname)
    as [-> | (_ & Hlines & text & Htext & Hcr & Hend)]; [exact Hok|].
  rewrite Htext in *.
  cbn [users_file_ok]. split; [exact Hcr|]. split; [now right|].
  cbn [lines_of] in Hlines. rewrite Hlines. apply Forall_app. split.
  - destruct file as [old|]; [apply Hok | constructor].
  - constructor; [now apply entry_line_of_user | constructor].
Qed.

(** X17: who registers can log in: after [register_user] has accepted a
    name without colon and line break, [login_user] with the same name and
    password returns the name. *)
Theorem login_user_after_register (username password : str) (file : option str) :
  users_file_ok file -> one_line (strip username) -> ~ In (chr ":") (strip username) ->
  fst (register_user hash_password username password file) = Some (strip username) ->
  login_user hash_password username password
    (snd (register_user hash_password username password file))
  = Ok (Some (strip username)).
Proof.
  intros Hok Hname Hcolon Hreg.
  destruct (register_user_cases username password file Hok Hname)
    as [E | (_ & Hlines & _)]; [rewrite E in Hreg; discriminate|].
  rewrite login_user_lines, Hlines, login_loop_app.
  assert (Hold : Forall line_of_user (lines_of file))
    by (destruct file as [old|]; [apply Hok | constructor]).
  destruct (login_loop_users (strip username) (hash_password (strip password)) _ Hold)
    as [-> | ->]; [|reflexivity].
  cbn [login_loop]. rewrite strip_entry, split_sep_user_line.
  - cbn [unpack2 bind]. now rewrite !str_eqb_refl.
  - exact Hcolon.
  - now apply is_hex_not_In with (2 := hash_password_hex (strip password)).
Qed.

(** X18: [register_user] accepts a name with a colon in it, and from then
    on [login_user] raises [ValueError] at that line: every login that failed
    on the file before, the new user's own among them, now ends in the
    exception. *)
Theorem login_user_after_colon_name (username password : str) (file : option str) :
  users_file_ok file -> one_line (strip username) -> In (chr ":") (strip username) ->
  fst (register_user hash_password username password file) <> None ->
  forall username2 password2,
    login_user hash_password username2 password2 file = Ok None ->
    login_user hash_password username2 password2
      (snd (register_user hash_password username password file))
    = Raise ValueError.
Proof.
  intros Hok Hname Hcolon Hreg username2 password2 Hfail.
  destruct (register_user_cases username password file Hok Hname)
    as [E | (_ & Hlines & _)]; [rewrite E in Hreg; now contradiction Hreg|].
  rewrite login_user_lines in *. rewrite Hlines, login_loop_app, Hfail.
  cbn [login_loop]. rewrite strip_entry. unfold split_sep. change COLON with [chr ":"].
  pose proof (count_split_sep_from_char (chr ":") []
                (strip username ++ [chr ":"] ++ hash_password (strip password))) as Hlen.
  rewrite count_occ_app in Hlen. cbn [app count_occ] in Hlen.
  destruct (N.eq_dec (chr ":") (chr ":")) as [_|]; [|contradiction].
  apply (count_occ_In N.eq_dec) in Hcolon.
  destruct (split_sep_from _ _ _ _) as [|a [|b [|c l]]]; cbn [length] in Hlen;
    try (exfalso; unfold str, char in *; lia); reflexivity.
Qed.

End UsersFacts.

Lemma login_user_after_register_witness :
  login_user (fun _ => lit "5e884898") (lit " ann ") (lit "secret")
    (snd (register_user (fun _ => lit "5e884898") (lit " ann ") (lit "secret")
            (Some (lit "bob:2bb80d53" ++ [NEWLINE]))))
  = Ok (Some (lit "ann")).
Proof.
  apply (login_user_after_register (fun _ => lit "5e884898")).
  - intros _. repeat constructor.
  - split; [intros H; cbv in H; intuition discriminate|]. split; [now right; exists (lit "bob:2bb80d53")|].
    constructor; [|constructor].
    exists (lit "bob"), (lit "2bb80d53"). split; [reflexivity|].
    split; intros H; cbv in H; intuition discriminate.
  - split; intros H; cbv in H; intuition discriminate.
  - intros H; cbv in H; intuition discriminate.
  - reflexivity.
Defined.

Lemma register_user_keeps_file_ok_witness :
  users_file_ok (snd (register_user (fun _ => lit "5e884898") (lit "ann") (lit "secret") None)).
Proof.
  apply (register_user_keeps_file_ok (fun _ => lit "5e884898")).
  - intros _. repeat constructor.
  - exact I.
  - split; intros H; cbv in H; intuition discriminate.
  - intros H; cbv in H; intuition discriminate.
Defined.

Lemma login_user_after_colon_name_witness :
  login_user (fun _ => lit "5e884898") (lit "a:b") (lit "secret")
    (snd (register_user (fun _ => lit "5e884898") (lit "a:b") (lit "secret") None))
  = Raise ValueError.
Proof.
  apply (login_user_after_colon_name (fun _ => lit "5e884898")) with (file := None).
  - intros _. repeat constructor.
  - exact I.
  - split; intros H; cbv in H; intuition discriminate.
  - cbv. tauto.
  - discriminate.
  - reflexivity.
Defined.

(** ** [build_note_from_json], parsed again *)

Lemma lstrip_app_word (a w : str) :
  w <> [] -> first_not_space w -> lstrip (a ++ w) = lstrip a ++ w.
Proof.
  intros Hne Hw. induction a as [|c a IH]; cbn [app lstrip].
  - now apply lstrip_fixed.
  - now destruct (is_space c).
Qed.

Lemma strip_app_word (a w : str) :
  w <> [] -> first_not_space w -> first_not_space (rev w) ->
  strip (a ++ w) = lstrip a ++ w.
Proof.
  intros Hne H1 H2. unfold strip. rewrite lstrip_app_word by assumption.
  apply rstrip_fixed. rewrite rev_app_distr.
  destruct (rev w) as [|c r] eqn:E; [|exact H2].
  apply (f_equal (@rev _)) in E. rewrite rev_involutive in E. contradiction.
Qed.

Lemma split_ws_lstrip (s : str) : split_ws (lstrip s) = split_ws s.
Proof.
  destruct (lstrip_spec s) as (l & Heq & Hl & _). rewrite Heq at 2.
  unfold split_ws. now rewrite split_ws_from_blank.
Qed.

Lemma due_chunk_clean (x : str) :
  Forall (fun c => is_space c = false /\ c <> chr "]") x ->
  strip (rstrip_chars RBRACKET (x ++ RBRACKET)) = x.
Proof.
  intros Hx. change RBRACKET with [chr "]"].
  change (x ++ [chr "]"]) with (x ++ repeat (chr "]") 1). rewrite rstrip_chars_repeat.
  rewrite (without_trailing_rstrip (chr "]") x x).
  - apply strip_fixed.
    + destruct x as [|c x]; [exact I|]. now inversion Hx as [|? ? [H _] _].
    + destruct (rev x) as [|c r] eqn:E; [exact I|]. cbn.
      rewrite Forall_forall in Hx. apply (Hx c). apply in_rev. unfold char in *.
      rewrite E. now left.
  - split; [exists 0; now rewrite app_nil_r|].
    destruct (rev x) as [|c r] eqn:E; [exact I|].
    rewrite Forall_forall in Hx. apply (Hx c). apply in_rev. unfold char in *.
    rewrite E. now left.
Qed.

Lemma joined_tags_word (tags_ : list str) (t : str) (rest : list str) :
  tags_ = t :: rest -> is_tag t = true ->
  Forall (Forall (fun c => is_space c = false)) tags_ ->
  word (join COMMA tags_) /\ is_tag (join COMMA tags_) = true.
Proof.
  intros -> Ht Hsp. apply is_tag_first in Ht as [name ->].
  assert (Hhead : exists more, join COMMA ((chr "#" :: name) :: rest) = chr "#" :: more).
  { destruct rest; [now exists name|]. rewrite join_cons by discriminate.
    eexists. reflexivity. }
  destruct Hhead as [more Hmore]. unfold str, char in *. split; [split|].
  - rewrite Hmore. discriminate.
  - apply Forall_forall. intros c Hc.
    apply In_join in Hc as [[<- | []] | (p & Hp & Hc)]; [reflexivity|].
    rewrite Forall_forall in Hsp. apply Hsp in Hp.
    rewrite Forall_forall in Hp. now apply Hp.
  - rewrite Hmore. reflexivity.
Qed.

Lemma no_char_join (x : char) (sep : str) (parts : list str) :
  ~ In x sep -> Forall (fun p => ~ In x p) parts -> ~ In x (join sep parts).
Proof.
  intros Hsep Hparts H. apply In_join in H as [H | (p & Hp & H)]; [auto|].
  rewrite Forall_forall in Hparts. exact (Hparts p Hp H).
Qed.

(** The tokens of what [build_note_from_json] puts in front of the marker. *)
Lemma split_ws_built (body_words : list str) (T : str) :
  Forall word body_words -> T = [] \/ word T ->
  split_ws (join SPACE body_words ++ SPACE ++ T ++ SPACE)
  = body_words ++ match T with [] => [] | _ :: _ => [T] end /\
  ends_blank (join SPACE body_words ++ SPACE ++ T ++ SPACE).
Proof.
  intros Hbody HT. split.
  - rewrite !app_assoc. unfold split_ws at 1.
    rewrite split_ws_from_trailing by (repeat constructor).
    fold (split_ws ((join SPACE body_words ++ SPACE) ++ T)).
    destruct HT as [-> | HT].
    + rewrite !app_nil_r. unfold split_ws.
      rewrite split_ws_from_trailing by (repeat constructor).
      now apply split_ws_join.
    + rewrite split_ws_app_word; [|unfold ends_blank; now rewrite rev_app_distr | exact HT].
      unfold split_ws at 1. rewrite split_ws_from_trailing by (repeat constructor).
      fold (split_ws (join SPACE body_words)). rewrite split_ws_join by exact Hbody.
      destruct HT as [Hne _]. now destruct T.
  - unfold ends_blank. rewrite !app_assoc, rev_app_distr. reflexivity.
Qed.

Lemma filter_none {A} (f : A -> bool) (l : list A) :
  Forall (fun x => f x = false) l -> filter f l = [].
Proof.
  induction 1 as [|x l Hx _ IH]; [reflexivity|]. cbn. now rewrite Hx.
Qed.

Lemma parse_of_built (portion : str) (due : option str) (body_words : list str) (T : str) :
  Forall word body_words -> Forall (fun w => is_tag w = false) body_words ->
  T = [] \/ is_tag T = true ->
  split_ws portion = body_words ++ match T with [] => [] | _ :: _ => [T] end ->
  parse_of portion due
  = {| note := join SPACE body_words;
       tags := match T with [] => [] | _ :: _ => [T] end;
       due_date := due |}.
Proof.
  intros Hwords Hbody HT Hsplit. unfold parse_of.
  rewrite split_ws_strip, Hsplit, !filter_app.
  rewrite (filter_none is_tag body_words Hbody).
  rewrite (filter_all (fun w => negb (is_tag w)) body_words)
    by (intros w Hw; rewrite Forall_forall in Hbody; now rewrite (Hbody w Hw)).
  destruct T as [|c T'].
  - cbn [filter app]. now rewrite app_nil_r, strip_join_words.
  - destruct HT as [HT | HT]; [discriminate|].
    cbn [filter]. rewrite HT. cbn [negb app]. now rewrite app_nil_r, strip_join_words.
Qed.

(** X19: [parse_note] reads back what [build_note_from_json] writes, up to
    the tags: for a note of words without tags among them, tags without
    whitespace of which the first begins with [#], a due date without
    whitespace and closing bracket, and no opening bracket anywhere, the note
    comes back, an absent or empty due date comes back as [None] and any other
    as it is, and the tags come back as one tag, the comma-joined string. *)
Theorem parse_note_build_note_from_json (d : note_dict) (body_words : list str) :
  note d = join SPACE body_words ->
  Forall word body_words ->
  Forall (fun w => is_tag w = false) body_words ->
  Forall (Forall (fun c => is_space c = false)) (tags d) ->
  match tags d with t :: _ => is_tag t = true | [] => True end ->
  match due_date d with
  | Some x => Forall (fun c => is_space c = false /\ c <> chr "]") x
  | None => True
  end ->
  ~ In (chr "[") (note d) ->
  Forall (fun t => ~ In (chr "[") t) (tags d) ->
  match due_date d with Some x => ~ In (chr "[") x | None => True end ->
  parse_note (build_note_from_json d)
  = Ok {| note := note d;
          tags := match tags d with [] => [] | _ :: _ => [join COMMA (tags d)] end;
          due_date := match due_date d with
                      | Some ((_ :: _) as x) => Some x
                      | _ => None
                      end |}.
Proof.
  destruct d as [n tg du]. cbn [note tags due_date].
  intros -> Hwords Hbody Hsp Hfirst Hdue Hb1 Hb2 Hb3.
  unfold build_note_from_json. cbn [note tags due_date].
  set (T := match tg with [] => [] | _ :: _ => join COMMA tg end).
  assert (HT : (T = [] \/ word T) /\ (T = [] \/ is_tag T = true) /\ ~ In (chr "[") T
               /\ match T with [] => [] | _ :: _ => [T] end
                  = match tg with [] => [] | _ :: _ => [join COMMA tg] end).
  { subst T. destruct tg as [|t rest].
    - repeat split; try (now left). intros [].
    - destruct (joined_tags_word (t :: rest) t rest eq_refl Hfirst Hsp) as [Hw Ht].
      repeat split; try (now right).
      + apply no_char_join; [intros [H | []]; discriminate | exact Hb2].
      + destruct Hw as [Hne _]. now destruct (join COMMA (t :: rest)). }
  destruct HT as (HTw & HTt & HTb & HTl).
  destruct (split_ws_built body_words T Hwords HTw) as [Hsplit Hend].
  assert (Hfront : ~ In (chr "[") (join SPACE body_words ++ SPACE ++ T ++ SPACE)).
  { intros H. apply in_app_or in H as [H | H]; [auto|].
    apply in_app_or in H as [[H | []] | H]; [discriminate|].
    apply in_app_or in H as [H | [H | []]]; [auto | discriminate]. }
  destruct du as [[|c x]|]; cbn [truthy_str].
  - rewrite !app_nil_r in *.
    rewrite parse_note_plain.
    + f_equal. etransitivity;
        [apply (parse_of_built _ _ body_words T); try assumption;
         now rewrite split_ws_strip|].
      f_equal. exact HTl.
    + apply no_bracket_no_due. apply Forall_forall. intros y Hy ->.
      apply In_strip in Hy. now apply Hfront.
  - replace (join SPACE body_words ++ SPACE ++ T ++ SPACE
             ++ lit "[due:" ++ (c :: x) ++ lit "]")
      with ((join SPACE body_words ++ SPACE ++ T ++ SPACE) ++ DUE ++ (c :: x) ++ RBRACKET)
      by now rewrite <- !app_assoc.
    rewrite strip_app_word; [| discriminate | reflexivity |].
    + rewrite (parse_note_marker _ (lstrip (join SPACE body_words ++ SPACE ++ T ++ SPACE))
                 ((c :: x) ++ RBRACKET)).
      * rewrite due_chunk_clean by exact Hdue. f_equal. etransitivity;
          [apply (parse_of_built _ _ body_words T); try assumption;
           now rewrite split_ws_lstrip|].
        f_equal. exact HTl.
      * apply last_occurrence_no_bracket. apply Forall_forall. intros y Hy ->.
        apply in_app_or in Hy as [Hy | [Hy | []]]; [now apply Hb3 | discriminate].
    + rewrite !rev_app_distr. reflexivity.
  - rewrite !app_nil_r in *.
    rewrite parse_note_plain.
    + f_equal. etransitivity;
        [apply (parse_of_built _ _ body_words T); try assumption;
         now rewrite split_ws_strip|].
      f_equal. exact HTl.
    + apply no_bracket_no_due. apply Forall_forall. intros y Hy ->.
      apply In_strip in Hy. now apply Hfront.
Qed.

Lemma parse_note_build_note_from_json_witness :
  parse_note (build_note_from_json
                {| note := lit "Finish project"; tags := [lit "#urgent"; lit "#work"];
                   due_date := Some (lit "2025-09-01") |})
  = Ok {| note := lit "Finish project"; tags := [lit "#urgent,#work"];
          due_date := Some (lit "2025-09-01") |}.
Proof.
  apply (parse_note_build_note_from_json
           {| note := lit "Finish project"; tags := [lit "#urgent"; lit "#work"];
              due_date := Some (lit "2025-09-01") |}
           [lit "Finish"; lit "project"]).
  - reflexivity.
  - repeat constructor; discriminate.
  - repeat constructor.
  - repeat constructor.
  - reflexivity.
  - repeat constructor; discriminate.
  - intros H; cbv in H; intuition discriminate.
  - repeat constructor; intros H; cbv in H; intuition discriminate.
  - intros H; cbv in H; intuition discriminate.
Defined.

(** ** Saving and importing twice *)

Lemma is_duplicate_found (user note_ t : str) (rest : list str) (due : option str)
    (db : database) :
  is_duplicate user note_ (t :: rest) due db ->
  add_note_to_db user note_ (t :: rest) due db = (false, db).
Proof.
  intros (r & Hin & H). unfold add_note_to_db. cbn [tag_string_of] in *.
  destruct (find _ (notes db)) as [r'|] eqn:E; [reflexivity|].
  apply (find_none _ _ E) in Hin. apply duplicate_where_tagged in H. congruence.
Qed.

Lemma is_duplicate_after_add (user note_ : str) (tags_ : list str) (due : option str)
    (db : database) :
  tags_ <> [] -> is_duplicate user note_ tags_ due (snd (add_note_to_db user note_ tags_ due db)).
Proof.
  intros Hne. destruct tags_ as [|t rest]; [contradiction|].
  unfold add_note_to_db. cbn [tag_string_of].
  destruct (find _ (notes db)) as [r|] eqn:E; cbn [snd].
  - apply find_some in E as [Hin E]. apply duplicate_where_tagged in E. now exists r.
  - eexists. split; [apply in_or_app; right; now left|]. now repeat split.
Qed.

Lemma add_note_to_db_call_twice (user note_ : str) (tags_ : list str) (due : option str)
    (db : database) :
  tags_ <> [] ->
  snd (add_note_to_db_call user note_ tags_ due
         (snd (add_note_to_db_call user note_ tags_ due db)))
  = snd (add_note_to_db_call user note_ tags_ due db).
Proof.
  intros Hne. rewrite (add_note_to_db_call_eq user note_ tags_ due db).
  destruct (bindable _) eqn:Hb; cbn [negb snd];
    [|rewrite add_note_to_db_call_eq, Hb; reflexivity].
  destruct (fst (add_note_to_db user note_ tags_ due db)) eqn:Hflag.
  - destruct (sqlite_integer (next_id db)) eqn:Hid; cbn [negb snd].
    + pose proof (is_duplicate_after_add user note_ tags_ due db Hne) as Hdup.
      destruct tags_ as [|t rest]; [contradiction|].
      rewrite add_note_to_db_call_eq, Hb. cbn [negb].
      now rewrite (is_duplicate_found _ _ _ _ _ _ Hdup).
    + rewrite add_note_to_db_call_eq, Hb, Hflag, Hid. reflexivity.
  - cbn [snd]. rewrite add_note_to_db_call_eq, Hb, Hflag. reflexivity.
Qed.

(** X20: a note with at least one tag that is saved twice in a row is
    stored once: the second [add_note_to_db] leaves the table as the first
    left it. *)
Theorem add_note_to_db_twice (user note_ t : str) (rest : list str) (due : option str)
    (db : database) :
  snd (add_note_to_db_call user note_ (t :: rest) due
         (snd (add_note_to_db_call user note_ (t :: rest) due db)))
  = snd (add_note_to_db_call user note_ (t :: rest) due db).
Proof. now apply add_note_to_db_call_twice. Qed.

(** X21: importing a text file again does not get further: when the first
    line that is not blank holds a tag, a second [import_txt_to_db] of the
    file leaves the table as the first left it, so that the notes of the
    lines behind it are not saved by importing again. *)
Theorem import_txt_to_db_twice (user : str) (lines : list str) (i j : nat)
    (db : database) :
  (forall note_part tags_ due,
      first_note lines = Some (note_part, tags_, due) -> tags_ <> []) ->
  snd (import_txt_to_db user lines j (snd (import_txt_to_db user lines i db)))
  = snd (import_txt_to_db user lines i db).
Proof.
  intros Htagged.
  pose proof (import_txt_to_db_stops user lines i db) as H1.
  destruct (first_note lines) as [[[n t] d]|] eqn:Efirst.
  - destruct H1 as (e & db' & Hcall & ->). cbn [snd].
    pose proof (import_txt_to_db_stops user lines j db') as H2. rewrite Efirst in H2.
    destruct H2 as (e2 & db2 & Hcall2 & ->). cbn [snd].
    pose proof (add_note_to_db_call_twice user n t d db (Htagged n t d eq_refl)) as Htwice.
    rewrite Hcall in Htwice. cbn [snd] in Htwice. rewrite Hcall2 in Htwice. exact Htwice.
  - rewrite H1. cbn [snd].
    pose proof (import_txt_to_db_stops user lines j db) as H2. rewrite Efirst in H2.
    now rewrite H2.
Qed.

Lemma import_txt_to_db_twice_witness :
  snd (import_txt_to_db (lit "ann")
         [lit "  "; lit "Buy groceries #errand [due:2025-07-31]"; lit "Clean #chores"] 0
         (snd (import_txt_to_db (lit "ann")
                 [lit "  "; lit "Buy groceries #errand [due:2025-07-31]";
                  lit "Clean #chores"] 0 empty_db)))
  = snd (import_txt_to_db (lit "ann")
           [lit "  "; lit "Buy groceries #errand [due:2025-07-31]"; lit "Clean #chores"]
           0 empty_db).
Proof.
  apply import_txt_to_db_twice.
  intros note_part tags_ due H. injection H as _ <- _. discriminate.
Defined.
